(** * easyjson code generator core ([gen/generator.go])

    A shallow embedding of the orchestration core of the generator: the
    worklist loop of [Run], the symbol namer [functionName], the import alias
    allocator [pkgAlias], the type reference printer [getType] and the
    identifier converter [camelToSnake], followed by the properties of the
    specification that concern them.

    Conventions of the embedding.
    - Go strings are [string]; the embedding covers strings of ASCII runes, so
      that ranging over a string visits its characters one by one.  The
      [unicode] predicates are the restriction of Go's tables to U+0000..U+007F.
    - Go maps are [gmap]s.  A [range] statement over a map visits the entries
      in an order the language leaves unspecified; every function that ranges
      over a map takes the order of that visit as a [shuffle] argument.
    - A method with a pointer receiver becomes a function that takes the
      [Generator] and returns the updated one.
    - The two unbounded [for i := ...; ; i++] loops run on fuel and return
      [None] when it is used up; the fuel they are given is proved sufficient. *)



From Stdlib Require Import Ascii String.
From stdpp Require Import gmap strings list fin_maps pretty sorting.

Local Open Scope string_scope.
Local Open Scope list_scope.

(** ** Strings and runes *)

Definition nl : string := String (ascii_of_nat 10) "".

(** [strings.HasPrefix s prefix]. *)
Fixpoint HasPrefix (s prefix : string) : bool :=
  match prefix, s with
  | "", _ => true
  | String _ _, "" => false
  | String a prefix', String b s' => bool_decide (a = b) && HasPrefix s' prefix'
  end.

Module unicode.

Definition code (c : ascii) : N := N_of_ascii c.

Definition IsUpper (c : ascii) : bool := ((65 <=? code c) && (code c <=? 90))%N.

Definition IsLower (c : ascii) : bool := ((97 <=? code c) && (code c <=? 122))%N.

Definition IsDigit (c : ascii) : bool := ((48 <=? code c) && (code c <=? 57))%N.

Definition IsLetter (c : ascii) : bool := IsUpper c || IsLower c.

Definition ToLower (c : ascii) : ascii :=
  if IsUpper c then ascii_of_N (code c + 32) else c.

End unicode.

(** The zero rune, which [camelToSnake] uses for "no buffered character". *)
Definition rune0 : ascii := ascii_of_nat 0.

Definition WriteRune (buf : string) (c : ascii) : string := buf +:+ String c "".

(** The body of the [for _, c := range name] loop of [camelToSnake], on the
    three variables the loop updates. *)
Definition camelToSnake_step (c : ascii) (st : string * bool * ascii)
    : string * bool * ascii :=
  let '(ret, multipleUpper, lastUpper) := st in
  let isUpper :=
    unicode.IsUpper c
    || (negb (bool_decide (lastUpper = rune0)) && negb (unicode.IsLower c)) in
  let ret :=
    if negb (bool_decide (lastUpper = rune0)) then
      let firstInRow := negb multipleUpper in
      let lastInRow := negb isUpper in
      let ret :=
        if (0 <? String.length ret)%nat && (firstInRow || lastInRow)
        then WriteRune ret "_"%char else ret in
      WriteRune ret (unicode.ToLower lastUpper)
    else ret in
  if isUpper then (ret, negb (bool_decide (lastUpper = rune0)), c)
  else (WriteRune ret c, false, rune0).

Fixpoint camelToSnake_loop (name : string) (st : string * bool * ascii)
    : string * bool * ascii :=
  match name with
  | "" => st
  | String c name' => camelToSnake_loop name' (camelToSnake_step c st)
  end.

Definition camelToSnake (name : string) : string :=
  let '(ret, _, lastUpper) := camelToSnake_loop name ("", false, rune0) in
  if negb (bool_decide (lastUpper = rune0))
  then WriteRune ret (unicode.ToLower lastUpper)
  else ret.

(** [path.Base] of the Go standard library: the last element of a slash
    separated path, after trailing slashes are removed; ["."] for the empty
    path and ["/"] for a path of slashes only. *)
Fixpoint strip_slashes (rpath : list ascii) : list ascii :=
  match rpath with
  | c :: rpath' => if bool_decide (c = "/"%char) then strip_slashes rpath' else rpath
  | [] => []
  end.

Fixpoint last_element (rpath : list ascii) : list ascii :=
  match rpath with
  | c :: rpath' => if bool_decide (c = "/"%char) then [] else c :: last_element rpath'
  | [] => []
  end.

Definition path_Base (p : string) : string :=
  if bool_decide (p = "") then "."
  else
    let r := strip_slashes (reverse (list_ascii_of_string p)) in
    let p' := string_of_list_ascii (reverse (last_element r)) in
    if bool_decide (p' = "") then "/" else p'.

(** ** Types of the host type system

    A [reflect.Type] is compared by identity; its package path, name and
    string rendering do not determine it (Go documents [String] as not unique
    among types, and two unnamed types share the empty name), so a descriptor
    carries an identity next to what the three methods return. *)
Module reflect.

Record Type_ : Type := MkType {
  id : nat;
  PkgPath : string;
  Name : string;
  String : string;
}.

Global Instance Type_eq_dec : EqDecision Type_.
Proof. solve_decision. Defined.

Global Instance Type_countable : Countable Type_.
Proof.
  refine (inj_countable'
    (λ t, (id t, PkgPath t, Name t, String t))
    (λ '(i, p, n, s), MkType i p n s) _).
  by intros [].
Defined.

End reflect.

Abbreviation rtype := reflect.Type_.

(** ** Iteration order of maps *)

Record shuffle : Type := Shuffle {
  sh_apply :> ∀ A : Type, list A → list A;
  sh_perm : ∀ (A : Type) (l : list A), sh_apply A l ≡ₚ l;
}.

Definition range_map {K : Type} `{Countable K} {V : Type}
    (sh : shuffle) (m : gmap K V) : list (K * V) :=
  sh _ (map_to_list m).

Definition sh_id : shuffle := Shuffle (λ _ l, l) (λ _ l, reflexivity l).

Definition sh_rev : shuffle := Shuffle (λ _ l, reverse l) (λ _ l, reverse_Permutation l).

(** ** The generator *)

Inductive FieldNamer := DefaultFieldNamer | SnakeCaseFieldNamer.

Definition pkgWriter : string := "github.com/mailru/easyjson/jwriter".

Definition pkgLexer : string := "github.com/mailru/easyjson/jlexer".

Record Generator : Type := MkGenerator {
  out : string;
  pkgName : string;
  pkgPath : string;
  buildTags : string;
  varCounter : Z;
  omitEmpty : bool;
  namer : FieldNamer;
  imports : gmap string string;
  marshallers : gmap rtype bool;
  typesSeen : gmap rtype bool;
  typesUnseen : list rtype;
  functionNames : gmap string rtype;
}.

Definition NewGenerator : Generator := {|
  out := "";
  pkgName := "";
  pkgPath := "";
  buildTags := "";
  varCounter := 0;
  omitEmpty := false;
  namer := DefaultFieldNamer;
  imports :=
    <[pkgWriter := "jwriter"]> (<[pkgLexer := "jlexer"]> (<["encoding/json" := "json"]> ∅));
  marshallers := ∅;
  typesSeen := ∅;
  typesUnseen := [];
  functionNames := ∅;
|}.

Definition set_out (f : string → string) (g : Generator) : Generator :=
  MkGenerator (f (out g)) (pkgName g) (pkgPath g) (buildTags g) (varCounter g)
    (omitEmpty g) (namer g) (imports g) (marshallers g) (typesSeen g)
    (typesUnseen g) (functionNames g).

Definition set_varCounter (v : Z) (g : Generator) : Generator :=
  MkGenerator (out g) (pkgName g) (pkgPath g) (buildTags g) v
    (omitEmpty g) (namer g) (imports g) (marshallers g) (typesSeen g)
    (typesUnseen g) (functionNames g).

Definition set_imports (v : gmap string string) (g : Generator) : Generator :=
  MkGenerator (out g) (pkgName g) (pkgPath g) (buildTags g) (varCounter g)
    (omitEmpty g) (namer g) v (marshallers g) (typesSeen g)
    (typesUnseen g) (functionNames g).

Definition set_marshallers (v : gmap rtype bool) (g : Generator) : Generator :=
  MkGenerator (out g) (pkgName g) (pkgPath g) (buildTags g) (varCounter g)
    (omitEmpty g) (namer g) (imports g) v (typesSeen g)
    (typesUnseen g) (functionNames g).

Definition set_typesSeen (v : gmap rtype bool) (g : Generator) : Generator :=
  MkGenerator (out g) (pkgName g) (pkgPath g) (buildTags g) (varCounter g)
    (omitEmpty g) (namer g) (imports g) (marshallers g) v
    (typesUnseen g) (functionNames g).

Definition set_typesUnseen (v : list rtype) (g : Generator) : Generator :=
  MkGenerator (out g) (pkgName g) (pkgPath g) (buildTags g) (varCounter g)
    (omitEmpty g) (namer g) (imports g) (marshallers g) (typesSeen g)
    v (functionNames g).

Definition set_functionNames (v : gmap string rtype) (g : Generator) : Generator :=
  MkGenerator (out g) (pkgName g) (pkgPath g) (buildTags g) (varCounter g)
    (omitEmpty g) (namer g) (imports g) (marshallers g) (typesSeen g)
    (typesUnseen g) v.

Definition SetPkg (name path : string) (g : Generator) : Generator :=
  MkGenerator (out g) name path (buildTags g) (varCounter g)
    (omitEmpty g) (namer g) (imports g) (marshallers g) (typesSeen g)
    (typesUnseen g) (functionNames g).

Definition SetBuildTags (tags : string) (g : Generator) : Generator :=
  MkGenerator (out g) (pkgName g) (pkgPath g) tags (varCounter g)
    (omitEmpty g) (namer g) (imports g) (marshallers g) (typesSeen g)
    (typesUnseen g) (functionNames g).

(** The value a [map[reflect.Type]bool] yields for a key: [false] when the
    key is absent. *)
Definition flag (m : gmap rtype bool) (t : rtype) : bool := default false (m !! t).

Definition addType (t : rtype) (g : Generator) : Generator :=
  if flag (typesSeen g) t then g
  else if existsb (λ t1, bool_decide (t1 = t)) (typesUnseen g) then g
  else set_typesUnseen (typesUnseen g ++ [t]) g.

(** [Add] receives an object and registers its type; the embedding takes the
    type [reflect.TypeOf(obj)] itself. *)
Definition Add (t : rtype) (g : Generator) : Generator :=
  set_marshallers (<[t := true]> (marshallers g)) (addType t g).

(** *** Import aliases *)

(** [fmt.Sprint(i)] for a non-negative loop counter. *)
Definition Sprint_nat (i : nat) : string := pretty i.

Definition alias_candidate (pkgPath : string) (i : nat) : string :=
  let alias := path_Base pkgPath in
  if (0 <? i)%nat then alias +:+ Sprint_nat i else alias.

(** The inner loop of [pkgAlias]: whether some value of the map is [alias].
    The loop computes a disjunction over the entries, so the order in which
    [range] visits them does not show in its result. *)
Definition alias_exists (imports : gmap string string) (alias : string) : bool :=
  existsb (λ kv, bool_decide (kv.2 = alias)) (map_to_list imports).

Fixpoint pkgAlias_loop (fuel : nat) (imports : gmap string string)
    (pkgPath : string) (i : nat) : option string :=
  match fuel with
  | O => None
  | S fuel =>
      let alias := alias_candidate pkgPath i in
      if alias_exists imports alias
      then pkgAlias_loop fuel imports pkgPath (S i)
      else Some alias
  end.

Definition pkgAlias (pkgPath : string) (g : Generator) : option (string * Generator) :=
  let alias := default "" (imports g !! pkgPath) in
  if negb (bool_decide (alias = "")) then Some (alias, g)
  else
    alias ← pkgAlias_loop (S (size (imports g))) (imports g) pkgPath 0;
    Some (alias, set_imports (<[pkgPath := alias]> (imports g)) g).

Definition getType (t : rtype) (g : Generator) : option (string * Generator) :=
  if bool_decide (reflect.Name t = "") || bool_decide (reflect.PkgPath t = "")
  then Some (reflect.String t, g)
  else if bool_decide (reflect.PkgPath t = pkgPath g)
  then Some (reflect.Name t, g)
  else
    '(alias, g') ← pkgAlias (reflect.PkgPath t) g;
    Some (alias +:+ "." +:+ reflect.Name t, g').

(** Go's [int] is 64 bits wide here; [varCounter++] wraps around. *)
Definition wrap_int (z : Z) : Z := ((z + 2 ^ 63) `mod` 2 ^ 64 - 2 ^ 63)%Z.

Definition uniqueVarName (g : Generator) : string * Generator :=
  let v := wrap_int (varCounter g + 1) in
  ("v" +:+ pretty v, set_varCounter v g).

(** *** Function names *)

Fixpoint map_runes (f : ascii → ascii) (s : string) : string :=
  match s with
  | "" => ""
  | String c s' => String (f c) (map_runes f s')
  end.

Definition safeName (t : rtype) : string :=
  let name := reflect.PkgPath t in
  let name :=
    if bool_decide (reflect.Name t = "") then name +:+ "anonymous"
    else name +:+ "." +:+ reflect.Name t in
  map_runes
    (λ c, if unicode.IsLetter c || unicode.IsDigit c then c else "_"%char) name.

(** The last loop of [functionName]; [fmt.Sprint(name, i)] puts no space
    between a string operand and the integer after it. *)
Fixpoint functionName_loop (fuel : nat) (functionNames : gmap string rtype)
    (name : string) (i : nat) : option string :=
  match fuel with
  | O => None
  | S fuel =>
      let nm := name +:+ Sprint_nat i in
      if bool_decide (is_Some (functionNames !! nm))
      then functionName_loop fuel functionNames name (S i)
      else Some nm
  end.

Definition functionName (sh : shuffle) (prefix : string) (t : rtype) (g : Generator)
    : option (string * Generator) :=
  let name := prefix +:+ safeName t in
  if match functionNames g !! name with
     | None => true
     | Some e => bool_decide (e = t)
     end
  then Some (name, set_functionNames (<[name := t]> (functionNames g)) g)
  else
    match
      List.find (λ e, bool_decide (e.2 = t) && HasPrefix e.1 prefix)
        (range_map sh (functionNames g))
    with
    | Some (name1, _) => Some (name1, g)
    | None =>
        nm ← functionName_loop (S (size (functionNames g))) (functionNames g) name 1;
        Some (nm, set_functionNames (<[nm := t]> (functionNames g)) g)
    end.

(** *** The header *)

(** [sort.Strings]. *)
Definition sort_Strings (l : list string) : list string := merge_sort String.le l.

Section header.

(** [strconv.Quote], which the verb [%q] applies to a string. *)
Variable quote : string → string.

(** The first loop of [printHeader] over the imports. *)
Definition collect_aliases (sh : shuffle) (imports : gmap string string)
    : list string * gmap string string :=
  fold_left
    (λ (acc : list string * gmap string string) (e : string * string),
       ((acc.1 ++ [e.2])%list, <[e.2 := e.1]> acc.2))
    (range_map sh imports) ([], ∅).

(** The (alias, path) pairs of the import lines, in the order in which
    [printHeader] prints them.  The slice [aliases] is sorted and then not
    read again: the printing loop ranges over [g.imports]. *)
Definition import_lines (sh1 sh2 : shuffle) (g : Generator) : list (string * string) :=
  let '(aliases, byAlias) := collect_aliases sh1 (imports g) in
  let aliases := sort_Strings aliases in
  map (λ e : string * string, (e.2, default "" (byAlias !! e.2)))
    (range_map sh2 (imports g)).

Definition import_line (line : string * string) : string :=
  "  " +:+ line.1 +:+ " " +:+ quote line.2 +:+ nl.

Fixpoint concat_strings (l : list string) : string :=
  match l with
  | [] => ""
  | s :: l' => s +:+ concat_strings l'
  end.

(** What [printHeader] prints on the standard output. *)
Definition printHeader (sh1 sh2 : shuffle) (g : Generator) : string :=
  (if negb (bool_decide (buildTags g = ""))
   then "// +build " +:+ " " +:+ buildTags g +:+ nl +:+ nl else "")
  +:+ "package " +:+ " " +:+ pkgName g +:+ nl
  +:+ nl
  +:+ "import (" +:+ nl
  +:+ concat_strings (map import_line (import_lines sh1 sh2 g))
  +:+ ")" +:+ nl
  +:+ nl
  +:+ "var _ = json.RawMessage{} // suppress unused package warning" +:+ nl
  +:+ nl.

End header.

(** ** Running the generator *)

(** A Go [error] value, with the message its [Error] method returns. *)
Record error : Type := MkError { Error : string }.

(** Modelled from the spec: the four emission collaborators
    [genStructDecoder], [genStructEncoder], [genStructMarshaller] and
    [genStructUnmarshaller] are methods of the generator defined outside
    [generator.go].  Following section 6 of the specification, a collaborator
    appends code to the shared output buffer, may request the types it
    discovers, uses the naming services of the generator, and returns an
    error or nil.  A collaborator is a tree of such requests: each node is one
    call on the generator, and the continuation receives what the call
    returns. *)
Inductive prog : Type :=
  | Return (err : option error)
  | WriteString (s : string) (k : prog)
  | CallAddType (t : rtype) (k : prog)
  | CallFunctionName (prefix : string) (t : rtype) (k : string → prog)
  | CallGetType (t : rtype) (k : string → prog)
  | CallUniqueVarName (k : string → prog).

Inductive kind := Decoder | Encoder | Marshaller | Unmarshaller.

Global Instance kind_eq_dec : EqDecision kind.
Proof. solve_decision. Defined.

(** What an observer of a run sees: a type taken off the worklist and marked
    seen, a type requested by a collaborator, text appended to the output
    buffer, a collaborator returning. *)
Inductive event : Type :=
  | EvVisit (t : rtype)
  | EvRequest (t : rtype)
  | EvEmit (s : string)
  | EvCall (k : kind) (t : rtype) (err : option error).

(** The [io.Writer] handed to [Run]: the standard output of the process, or
    some other writer whose [Write] returns [werr], having taken the data
    when [werr] is nil. *)
Inductive Writer : Type :=
  | os_Stdout
  | other_Writer (werr : option error).

(** The generator in its environment: the number of map iterations the
    runtime has ordered so far, the events so far, what has been printed on
    the standard output and what the other writer has received. *)
Record Machine : Type := MkMachine {
  gen : Generator;
  clock : nat;
  trace : list event;
  stdout : string;
  written : string;
}.

Definition with_gen (g : Generator) (m : Machine) : Machine :=
  MkMachine g (clock m) (trace m) (stdout m) (written m).

Definition tick (m : Machine) : Machine :=
  MkMachine (gen m) (S (clock m)) (trace m) (stdout m) (written m).

Definition record (e : event) (m : Machine) : Machine :=
  MkMachine (gen m) (clock m) (trace m ++ [e]) (stdout m) (written m).

Definition print (s : string) (m : Machine) : Machine :=
  MkMachine (gen m) (clock m) (trace m) (stdout m +:+ s) (written m).

Definition Write (w : Writer) (data : string) (m : Machine) : option error * Machine :=
  match w with
  | os_Stdout => (None, print data m)
  | other_Writer None =>
      (None, MkMachine (gen m) (clock m) (trace m) (stdout m) (written m +:+ data))
  | other_Writer (Some e) => (Some e, m)
  end.

Definition boot (g : Generator) : Machine := MkMachine g 0 [] "" "".

Section run.

Variable quote : string → string.

(** [order n] is the order in which the [n]-th map iteration of the
    execution visits the entries. *)
Variable order : nat → shuffle.

Variables genStructDecoder genStructEncoder genStructMarshaller
  genStructUnmarshaller : rtype → Generator → prog.

Definition collaborator (k : kind) : rtype → Generator → prog :=
  match k with
  | Decoder => genStructDecoder
  | Encoder => genStructEncoder
  | Marshaller => genStructMarshaller
  | Unmarshaller => genStructUnmarshaller
  end.

Fixpoint exec (p : prog) (m : Machine) : option (option error * Machine) :=
  match p with
  | Return err => Some (err, m)
  | WriteString s k =>
    exec k (record (EvEmit s) (with_gen (set_out (λ o, o +:+ s) (gen m)) m))
  | CallAddType t k => exec k (record (EvRequest t) (with_gen (addType t (gen m)) m))
  | CallFunctionName prefix t k =>
      '(name, g) ← functionName (order (clock m)) prefix t (gen m);
      exec (k name) (tick (with_gen g m))
  | CallGetType t k =>
      '(name, g) ← getType t (gen m);
      exec (k name) (with_gen g m)
  | CallUniqueVarName k =>
      let '(name, g) := uniqueVarName (gen m) in
      exec (k name) (with_gen g m)
  end.

Definition call (k : kind) (t : rtype) (m : Machine) : option (option error * Machine) :=
  '(err, m) ← exec (collaborator k t (gen m)) m;
  Some (err, record (EvCall k t err) m).

(** The first three statements of the loop body: [t] is the last element of
    the slice, the slice loses it, and [t] is marked seen. *)
Definition visit (t : rtype) (m : Machine) : Machine :=
  let g := gen m in
  let g := set_typesUnseen (removelast (typesUnseen g)) g in
  let g := set_typesSeen (<[t := true]> (typesSeen g)) g in
  record (EvVisit t) (with_gen g m).

(** The body of the loop of [Run] for the type [t] at the end of the slice.
    [Some e] is [return e]; [None] is the end of the body, or [continue]. *)
Definition Run_body (t : rtype) (m : Machine) : option (option error * Machine) :=
  let m := visit t m in
  '(err, m) ← call Decoder t m;
  if err is Some _ then Some (err, m) else
  '(err, m) ← call Encoder t m;
  if err is Some _ then Some (err, m) else
  if negb (flag (marshallers (gen m)) t) then Some (None, m) else
  '(err, m) ← call Marshaller t m;
  if err is Some _ then Some (err, m) else
  '(err, m) ← call Unmarshaller t m;
  Some (err, m).

Fixpoint Run_loop (fuel : nat) (m : Machine) : option (option error * Machine) :=
  match last (typesUnseen (gen m)) with
  | None => Some (None, m)
  | Some t =>
      match fuel with
      | O => None
      | S fuel =>
          '(err, m) ← Run_body t m;
          if err is Some _ then Some (err, m) else Run_loop fuel m
      end
  end.

(** [Run(out)]: [Some (err, m)] when the call returns [err] and leaves the
    machine [m]; [None] when the fuel does not suffice. *)
Definition Run (fuel : nat) (w : Writer) (m : Machine) : option (option error * Machine) :=
  let m := with_gen (set_out (λ _, "") (gen m)) m in
  '(err, m) ← Run_loop fuel m;
  if err is Some _ then Some (err, m) else
  let header := printHeader quote (order (clock m)) (order (S (clock m))) (gen m) in
  let m := print header (tick (tick m)) in
  Some (Write w (out (gen m)) m).

(** What [Run] does after the loop ended without an error. *)
Definition finish (w : Writer) (ml : Machine) : option error * Machine :=
  let header := printHeader quote (order (clock ml)) (order (S (clock ml))) (gen ml) in
  Write w (out (gen ml)) (print header (tick (tick ml))).

End run.

(** ** Searching the first free candidate

    The two counting loops of the generator are instances of one scan: try
    the candidates [cand i], [cand (S i)], ... and return the first one that
    is not in use. *)
Section scan.

Variable used : string → bool.

Variable cand : nat → string.

Fixpoint scan (fuel i : nat) : option string :=
  match fuel with
  | O => None
  | S fuel => if used (cand i) then scan fuel (S i) else Some (cand i)
  end.

End scan.

Definition map_inj (m : gmap string string) : Prop :=
  ∀ p q a, m !! p = Some a → m !! q = Some a → p = q.

(** A run of calls, one after the other. *)
Fixpoint pkgAliases (paths : list string) (g : Generator)
    : option (list string * Generator) :=
  match paths with
  | [] => Some ([], g)
  | p :: paths =>
      '(a, g) ← pkgAlias p g;
      '(aliases, g) ← pkgAliases paths g;
      Some (a :: aliases, g)
  end.

Definition type_anonymous : rtype := reflect.MkType 7 "" "" "struct { X int }".

Definition type_local : rtype := reflect.MkType 8 "example.com/out" "Local" "out.Local".

Definition type_foreign : rtype := reflect.MkType 9 "example.com/lib/json" "Doc" "json.Doc".

Definition type_foreign2 : rtype :=
  reflect.MkType 12 "example.com/lib/json" "Node" "json.Node".

(** The three ways in which [functionName] returns. *)
Inductive functionName_case (sh : shuffle) (prefix : string) (t : rtype) (g : Generator)
    : string → Generator → Prop :=
  | fn_claim :
      let name := prefix +:+ safeName t in
      (functionNames g !! name = None ∨ functionNames g !! name = Some t) →
      functionName_case sh prefix t g name
        (set_functionNames (<[name := t]> (functionNames g)) g)
  | fn_found (e : rtype) (name1 : string) :
      functionNames g !! (prefix +:+ safeName t) = Some e → e ≠ t →
      functionNames g !! name1 = Some t → HasPrefix name1 prefix = true →
      functionName_case sh prefix t g name1 g
  | fn_mint (e : rtype) (j : nat) :
      let name := prefix +:+ safeName t in
      let nm := name +:+ Sprint_nat j in
      functionNames g !! name = Some e → e ≠ t →
      (∀ name1, functionNames g !! name1 = Some t → HasPrefix name1 prefix = false) →
      functionNames g !! nm = None →
      functionName_case sh prefix t g nm
        (set_functionNames (<[nm := t]> (functionNames g)) g).

(** One call of the namer: the order its search ranges in, the prefix and
    the type. *)
Record naming : Type := Naming {
  naming_order : shuffle;
  naming_prefix : string;
  naming_type : rtype;
}.

Fixpoint name_all (calls : list naming) (g : Generator) : option (list string * Generator) :=
  match calls with
  | [] => Some ([], g)
  | c :: calls =>
      '(name, g) ← functionName (naming_order c) (naming_prefix c) (naming_type c) g;
      '(names, g) ← name_all calls g;
      Some (name :: names, g)
  end.

Definition type_slash : rtype := reflect.MkType 1 "a/b" "T" "b.T".

Definition type_under : rtype := reflect.MkType 2 "a_b" "T" "a_b.T".

Definition anonymous1 : rtype := reflect.MkType 3 "" "" "struct { X int }".

Definition anonymous2 : rtype := reflect.MkType 4 "" "" "struct { Y string }".

(** A family of prefixes none of which is a proper prefix of another. *)
Definition prefix_free (P : list string) : Prop :=
  Forall (λ p, Forall (λ q, HasPrefix q p = true → p = q) P) P.

Global Instance prefix_free_dec (P : list string) : Decision (prefix_free P).
Proof. unfold prefix_free. apply _. Defined.

(** What the registry satisfies when it was filled through the prefixes of
    [P] only: a name of a type under a prefix is the canonical one unless the
    canonical one belongs to another type, and a type has at most one name
    under a prefix. *)
Definition registry_ok (P : list string) (regs : gmap string rtype) : Prop :=
  (∀ p n t, p ∈ P → regs !! n = Some t → HasPrefix n p = true →
     n = p +:+ safeName t
     ∨ ∃ t', regs !! (p +:+ safeName t) = Some t' ∧ t' ≠ t)
  ∧ (∀ p n1 n2 t, p ∈ P → regs !! n1 = Some t → regs !! n2 = Some t →
       HasPrefix n1 p = true → HasPrefix n2 p = true → n1 = n2).

Definition calls_two_prefixes : list naming :=
  [ Naming sh_id "easyjson_decode_" type_under;
    Naming sh_rev "easyjson_decode_" type_slash;
    Naming sh_id "easyjson_encode_" type_slash;
    Naming sh_rev "easyjson_encode_" type_under;
    Naming sh_id "easyjson_decode_" type_slash;
    Naming sh_rev "easyjson_encode_" type_slash ].

Definition calls_overlapping : list naming :=
  [ Naming sh_id "easyjson_" type_under;
    Naming sh_id "easyjson_" type_slash;
    Naming sh_id "easyjson_decode_" type_slash;
    Naming sh_rev "easyjson_" type_slash ].

(** ** The worklist *)

Definition pending_ok (g : Generator) : Prop :=
  NoDup (typesUnseen g)
  ∧ ∀ t, t ∈ typesUnseen g → flag (typesSeen g) t = false.

(** *** Traces *)

Definition visited (evs : list event) : list rtype :=
  omap (λ e, match e with EvVisit t => Some t | _ => None end) evs.

Fixpoint emitted (evs : list event) : string :=
  match evs with
  | [] => ""
  | EvEmit s :: evs => s +:+ emitted evs
  | _ :: evs => emitted evs
  end.

(** No collaborator call of the trace returned an error. *)
Definition clean (evs : list event) : Prop :=
  ∀ k t e, EvCall k t (Some e) ∉ evs.

(** The event is the return of the collaborator [k] called for [t]. *)
Definition is_call (k : kind) (t : rtype) (e : event) : bool :=
  match e with
  | EvCall k' t' _ => bool_decide (k' = k) && bool_decide (t' = t)
  | _ => false
  end.

(** How many times the collaborator [k] was called for [t]. *)
Definition calls (k : kind) (t : rtype) (evs : list event) : nat :=
  length (List.filter (is_call k t) evs).

(** Events of a collaborator at work: requests and emissions. *)
Definition quiet (evs : list event) : Prop :=
  Forall (λ e, match e with EvRequest _ | EvEmit _ => True | _ => False end) evs.

(** *** What a stretch of a run does to the machine

    [advances evs m m']: the machine went from [m] to [m'] and the events
    [evs] were observed meanwhile. *)
Record advances (evs : list event) (m m' : Machine) : Prop := {
  adv_trace : trace m' = trace m ++ evs;
  adv_marshallers : marshallers (gen m') = marshallers (gen m);
  adv_stdout : stdout m' = stdout m;
  adv_written : written m' = written m;
  adv_out : out (gen m') = out (gen m) +:+ emitted evs;
  adv_seen : ∀ t, flag (typesSeen (gen m')) t = true
                  ↔ flag (typesSeen (gen m)) t = true ∨ EvVisit t ∈ evs;
  adv_pending :
    pending_ok (gen m) →
    pending_ok (gen m') ∧ NoDup (visited evs)
    ∧ ∀ t, EvVisit t ∈ evs → flag (typesSeen (gen m)) t = false;
  adv_registered : ∀ t, t ∈ typesUnseen (gen m) ∨ EvRequest t ∈ evs →
                        flag (typesSeen (gen m')) t = true ∨ t ∈ typesUnseen (gen m');
  adv_origin : ∀ t, t ∈ typesUnseen (gen m') ∨ EvVisit t ∈ evs →
                    t ∈ typesUnseen (gen m) ∨ EvRequest t ∈ evs;
}.

(** The types a collaborator may request all lie in [U]. *)
Inductive requests_within (U : list rtype) : prog → Prop :=
  | rw_Return err : requests_within U (Return err)
  | rw_WriteString s k : requests_within U k → requests_within U (WriteString s k)
  | rw_CallAddType t k :
      t ∈ U → requests_within U k → requests_within U (CallAddType t k)
  | rw_CallFunctionName prefix t k :
      (∀ name, requests_within U (k name)) →
      requests_within U (CallFunctionName prefix t k)
  | rw_CallGetType t k :
      (∀ name, requests_within U (k name)) → requests_within U (CallGetType t k)
  | rw_CallUniqueVarName k :
      (∀ name, requests_within U (k name)) → requests_within U (CallUniqueVarName k).

(** The events of one pass through the loop body for the type [t], and the
    error with which the body leaves the loop, if any.  [requested] is
    whether marshallers were requested for [t]. *)
Inductive body_events (requested : bool) (t : rtype) : list event → option error → Prop :=
  | body_decoder_fails q1 e :
      quiet q1 →
      body_events requested t
        (EvVisit t :: q1 ++ [EvCall Decoder t (Some e)]) (Some e)
  | body_encoder_fails q1 q2 e :
      quiet q1 → quiet q2 →
      body_events requested t
        (EvVisit t :: q1 ++ EvCall Decoder t None :: q2 ++ [EvCall Encoder t (Some e)])
        (Some e)
  | body_helpers_only q1 q2 :
      quiet q1 → quiet q2 → requested = false →
      body_events requested t
        (EvVisit t :: q1 ++ EvCall Decoder t None :: q2 ++ [EvCall Encoder t None])
        None
  | body_marshaller_fails q1 q2 q3 e :
      quiet q1 → quiet q2 → quiet q3 → requested = true →
      body_events requested t
        (EvVisit t :: q1 ++ EvCall Decoder t None :: q2 ++ EvCall Encoder t None
           :: q3 ++ [EvCall Marshaller t (Some e)])
        (Some e)
  | body_all q1 q2 q3 q4 err :
      quiet q1 → quiet q2 → quiet q3 → quiet q4 → requested = true →
      body_events requested t
        (EvVisit t :: q1 ++ EvCall Decoder t None :: q2 ++ EvCall Encoder t None
           :: q3 ++ EvCall Marshaller t None :: q4 ++ [EvCall Unmarshaller t err])
        err.

(** The events of the loop of [Run]: passes through the body, the last of
    which may leave the loop with an error. *)
Inductive loop_events (requested : rtype → bool) : list event → option error → Prop :=
  | loop_exit : loop_events requested [] None
  | loop_abort t evs e :
      body_events (requested t) t evs (Some e) → loop_events requested evs (Some e)
  | loop_next t evs rest err :
      body_events (requested t) t evs None → loop_events requested rest err →
      loop_events requested (evs ++ rest) err.

(** *** [Run] as a whole *)

Definition reset_out (m : Machine) : Machine :=
  with_gen (set_out (λ _, "") (gen m)) m.

(** ** A run on two types

    Two record types of one package, the first with a field of the second,
    and collaborators in the manner of the generator's own: the decoder and
    the encoder name their function and emit it, the decoder of [type_A]
    requests [type_B], the marshallers refer to the type by [getType]. *)

Definition type_A : rtype := reflect.MkType 10 "example.com/pkg" "A" "pkg.A".

Definition type_B : rtype := reflect.MkType 11 "example.com/pkg" "B" "pkg.B".

Definition demo_decoder (t : rtype) (g : Generator) : prog :=
  CallFunctionName "easyjson_decode_" t (λ name,
    WriteString ("func " +:+ name +:+ "()" +:+ nl)
      (if bool_decide (t = type_A) then CallAddType type_B (Return None)
       else Return None)).

Definition demo_encoder (t : rtype) (g : Generator) : prog :=
  CallFunctionName "easyjson_encode_" t (λ name,
    WriteString ("func " +:+ name +:+ "()" +:+ nl) (Return None)).

Definition demo_marshaller (t : rtype) (g : Generator) : prog :=
  CallGetType t (λ name,
    WriteString ("func (v *" +:+ name +:+ ") MarshalJSON()" +:+ nl) (Return None)).

Definition demo_unmarshaller (t : rtype) (g : Generator) : prog :=
  CallGetType t (λ name,
    WriteString ("func (v *" +:+ name +:+ ") UnmarshalJSON()" +:+ nl) (Return None)).

(** An encoder that cannot encode [type_B]. *)
Definition failing_encoder (t : rtype) (g : Generator) : prog :=
  if bool_decide (t = type_B) then Return (Some (MkError "unsupported type"))
  else demo_encoder t g.

Definition demo_quote (s : string) : string :=
  String (ascii_of_nat 34) s +:+ String (ascii_of_nat 34) "".

Definition demo_order (n : nat) : shuffle := if Nat.even n then sh_id else sh_rev.

Definition demo_start : Machine :=
  boot (Add type_A (SetPkg "pkg" "example.com/pkg" NewGenerator)).

Definition demo_Run (fuel : nat) (w : Writer) : option (option error * Machine) :=
  Run demo_quote demo_order demo_decoder demo_encoder demo_marshaller
    demo_unmarshaller fuel w demo_start.

Definition failing_Run (fuel : nat) (w : Writer) : option (option error * Machine) :=
  Run demo_quote demo_order demo_decoder failing_encoder demo_marshaller
    demo_unmarshaller fuel w demo_start.

(** What an observer sees of the run with the failing encoder. *)
Definition failing_events : list event :=
  [ EvVisit type_A;
    EvEmit ("func easyjson_decode_example_com_pkg_A()" +:+ nl);
    EvRequest type_B;
    EvCall Decoder type_A None;
    EvEmit ("func easyjson_encode_example_com_pkg_A()" +:+ nl);
    EvCall Encoder type_A None;
    EvEmit ("func (v *A) MarshalJSON()" +:+ nl);
    EvCall Marshaller type_A None;
    EvEmit ("func (v *A) UnmarshalJSON()" +:+ nl);
    EvCall Unmarshaller type_A None;
    EvVisit type_B;
    EvEmit ("func easyjson_decode_example_com_pkg_B()" +:+ nl);
    EvCall Decoder type_B None;
    EvCall Encoder type_B (Some (MkError "unsupported type")) ].

(** Marshallers requested for [type_B] once it was seen: the run on
    [demo_start], then [Add] of [type_B], then a second run. *)
Definition late_Add_Run (fuel : nat) (w : Writer) : option (option error * Machine) :=
  '(_, m1) ← demo_Run fuel w;
  Run demo_quote demo_order demo_decoder demo_encoder demo_marshaller
    demo_unmarshaller fuel w (with_gen (Add type_B (gen m1)) m1).

(** Two types registered one after the other, [type_B] last. *)
Definition stack_start : Machine :=
  boot (Add type_B (Add type_A (SetPkg "pkg" "example.com/pkg" NewGenerator))).

(** ** More on the identifier converter *)

Fixpoint all_runes (P : ascii → bool) (s : string) : bool :=
  match s with
  | "" => true
  | String c s' => P c && all_runes P s'
  end.

(** The runes up to [unicode.MaxASCII], the ones a Go string holds in one
    byte each. *)
Definition MaxASCII : N := 127.

Definition ascii_rune (c : ascii) : bool := (unicode.code c <=? MaxASCII)%N.

(** An ASCII rune that is no uppercase letter. *)
Definition plain_rune (c : ascii) : bool := ascii_rune c && negb (unicode.IsUpper c).

(** The buffered character of a state, if any, counts as one pending rune. *)
Definition buffered (st : string * bool * ascii) : nat :=
  if bool_decide (st.2 = rune0) then 0%nat else 1%nat.

(** ** More on the generator *)

(** The setters of the generator that the claims did not need. *)
Definition SetFieldNamer (n : FieldNamer) (g : Generator) : Generator :=
  MkGenerator (out g) (pkgName g) (pkgPath g) (buildTags g) (varCounter g)
    (omitEmpty g) n (imports g) (marshallers g) (typesSeen g)
    (typesUnseen g) (functionNames g).

Definition UseSnakeCase (g : Generator) : Generator :=
  SetFieldNamer SnakeCaseFieldNamer g.

Definition OmitEmpty (g : Generator) : Generator :=
  MkGenerator (out g) (pkgName g) (pkgPath g) (buildTags g) (varCounter g)
    true (namer g) (imports g) (marshallers g) (typesSeen g)
    (typesUnseen g) (functionNames g).

(** A struct field as the field namers read it: its name, and its tag as the
    lookup [Tag.Get] of the reflection library. *)
Record StructField : Type := MkStructField {
  FieldName : string;
  Tag_Get : string → string;
}.

(** [strings.Split(s, ",")[0]]: what precedes the first comma. *)
Fixpoint before_comma (s : string) : string :=
  match s with
  | "" => ""
  | String c s' => if bool_decide (c = ","%char) then "" else String c (before_comma s')
  end.

(** [GetJSONFieldName] of the two field namers. *)
Definition GetJSONFieldName (n : FieldNamer) (t : rtype) (f : StructField) : string :=
  let jsonName := before_comma (Tag_Get f "json") in
  match n with
  | DefaultFieldNamer =>
      if negb (bool_decide (jsonName = "")) then jsonName else FieldName f
  | SnakeCaseFieldNamer =>
      if negb (bool_decide (jsonName = "")) then jsonName
      else camelToSnake (FieldName f)
  end.

Definition safe_rune (c : ascii) : bool :=
  unicode.IsLetter c || unicode.IsDigit c || bool_decide (c = "_"%char).

(** The names of [n] successive calls of [uniqueVarName]. *)
Fixpoint uniqueVarNames (n : nat) (g : Generator) : list string * Generator :=
  match n with
  | O => ([], g)
  | S n =>
      let '(name, g) := uniqueVarName g in
      let '(names, g) := uniqueVarNames n g in
      (name :: names, g)
  end.

Definition field_UserName : StructField :=
  MkStructField "UserName"
    (λ key, if bool_decide (key = "json") then "uname,omitempty" else "").

Definition demo_events : list event :=
  [ EvVisit type_A;
    EvEmit ("func easyjson_decode_example_com_pkg_A()" +:+ nl);
    EvRequest type_B;
    EvCall Decoder type_A None;
    EvEmit ("func easyjson_encode_example_com_pkg_A()" +:+ nl);
    EvCall Encoder type_A None;
    EvEmit ("func (v *A) MarshalJSON()" +:+ nl);
    EvCall Marshaller type_A None;
    EvEmit ("func (v *A) UnmarshalJSON()" +:+ nl);
    EvCall Unmarshaller type_A None;
    EvVisit type_B;
    EvEmit ("func easyjson_decode_example_com_pkg_B()" +:+ nl);
    EvCall Decoder type_B None;
    EvEmit ("func easyjson_encode_example_com_pkg_B()" +:+ nl);
    EvCall Encoder type_B None ].

(** * Properties *)

(** ** Strings *)

Lemma append_nil_r (s : string) : s +:+ "" = s.
Proof. induction s as [|c s IH]; [done|]. unfold String.app in *. simpl. by rewrite IH. Qed.

Lemma append_assoc (s1 s2 s3 : string) : (s1 +:+ s2) +:+ s3 = s1 +:+ (s2 +:+ s3).
Proof.
  induction s1 as [|c s1 IH]; [done|].
  unfold String.app in *. simpl. by rewrite IH.
Qed.

Lemma append_cons (c : ascii) (s1 s2 : string) :
  String c s1 +:+ s2 = String c (s1 +:+ s2).
Proof. done. Qed.

Lemma append_eq_self (s x : string) : s +:+ x = s → x = "".
Proof.
  intros Hs. apply (inj (String.app s)). by rewrite append_nil_r.
Qed.

Lemma HasPrefix_spec (s prefix : string) :
  HasPrefix s prefix = true ↔ ∃ rest, s = prefix +:+ rest.
Proof.
  revert s. induction prefix as [|a prefix IH]; intros s.
  - split; [intros _; exists s; reflexivity|intros _; by destruct s].
  - destruct s as [|b s]; simpl.
    + split; [done|]. by intros [rest Hrest].
    + rewrite andb_true_iff, bool_decide_eq_true, IH. split.
      * intros [-> [rest ->]]. by exists rest.
      * intros [rest Hrest]. rewrite append_cons in Hrest.
        injection Hrest as -> ->. eauto.
Qed.

Lemma HasPrefix_append (prefix rest : string) : HasPrefix (prefix +:+ rest) prefix = true.
Proof. apply HasPrefix_spec. by exists rest. Qed.

(** Two prefixes of one string are comparable. *)
Lemma HasPrefix_comparable (s p q : string) :
  HasPrefix s p = true → HasPrefix s q = true →
  HasPrefix p q = true ∨ HasPrefix q p = true.
Proof.
  revert s q. induction p as [|a p IH]; intros s q Hp Hq.
  - right. by destruct q.
  - destruct q as [|b q]; [by left|].
    destruct s as [|c s]; [done|]. simpl in *.
    apply andb_true_iff in Hp as [Ha Hp]. apply andb_true_iff in Hq as [Hb Hq].
    apply bool_decide_eq_true in Ha as ->. apply bool_decide_eq_true in Hb as ->.
    rewrite !bool_decide_eq_true_2 by done. simpl. eauto.
Qed.

Lemma pretty_N_go_length (x : N) (s : string) :
  (String.length s ≤ String.length (pretty_N_go x s))%nat.
Proof.
  revert s. induction (N.lt_wf_0 x) as [x _ IH]; intros s.
  destruct (decide (x = 0)%N) as [->|Hx]; [by rewrite pretty_N_go_0|].
  rewrite pretty_N_go_step by lia.
  etrans; [|apply IH, N.div_lt; lia]. simpl. lia.
Qed.

Lemma Sprint_nat_nonempty (i : nat) : Sprint_nat i ≠ "".
Proof.
  unfold Sprint_nat, pretty, pretty_nat, pretty, pretty_N.
  case_decide as Hi; [done|]. intros Hgo.
  rewrite pretty_N_go_step in Hgo by lia.
  pose proof (pretty_N_go_length (N.of_nat i `div` 10)
    (String (pretty_N_char (N.of_nat i `mod` 10)) "")) as Hlen.
  rewrite Hgo in Hlen. simpl in Hlen. lia.
Qed.

Lemma Sprint_nat_inj (i j : nat) : Sprint_nat i = Sprint_nat j → i = j.
Proof. apply (inj pretty). Qed.

Section scan_properties.

Variable used : string → bool.

Variable cand : nat → string.

Lemma scan_Some (fuel i : nat) (a : string) :
  scan used cand fuel i = Some a →
  ∃ j, (i ≤ j)%nat ∧ a = cand j ∧ used a = false
       ∧ ∀ k, (i ≤ k < j)%nat → used (cand k) = true.
Proof.
  revert i. induction fuel as [|fuel IH]; intros i; simpl; [done|].
  destruct (used (cand i)) eqn:Hi.
  - intros (j & Hj & -> & Hfree & Hbelow)%IH.
    exists j. split_and!; [lia|done|done|].
    intros k Hk. destruct (decide (k = i)) as [->|]; [done|]. apply Hbelow. lia.
  - intros [= <-]. exists i. split_and!; [lia|done|done|]. intros k Hk. lia.
Qed.

Lemma scan_None (fuel i : nat) :
  scan used cand fuel i = None → ∀ k, (i ≤ k < i + fuel)%nat → used (cand k) = true.
Proof.
  revert i. induction fuel as [|fuel IH]; intros i; simpl; [intros _ k; lia|].
  destruct (used (cand i)) eqn:Hi; [|done].
  intros Hnone k Hk. destruct (decide (k = i)) as [->|]; [done|].
  apply (IH _ Hnone). lia.
Qed.

(** Pigeonhole: when the candidates are pairwise different and all strings
    in use lie in a pool shorter than the fuel, the scan finds one. *)
Lemma scan_total (pool : list string) (fuel i : nat) :
  (∀ j k, cand j = cand k → j = k) →
  (∀ s, used s = true → s ∈ pool) →
  (length pool < fuel)%nat →
  is_Some (scan used cand fuel i).
Proof.
  intros Hinj Hpool Hlen.
  destruct (scan used cand fuel i) as [a|] eqn:Hscan; [by eexists|exfalso].
  pose proof (scan_None _ _ Hscan) as Hused.
  assert (cand <$> seq i fuel ⊆+ pool) as Hsub.
  { apply NoDup_submseteq.
    - apply NoDup_fmap_2_strong; [|apply NoDup_seq].
      intros j k _ _. apply Hinj.
    - intros s (k & -> & Hk%elem_of_seq)%list_elem_of_fmap.
      apply Hpool, Hused. lia. }
  apply submseteq_length in Hsub. rewrite length_fmap, length_seq in Hsub. lia.
Qed.

End scan_properties.

(** ** The identifier converter *)

(** C8: the converter maps the fixtures "ID", "UserID", "HTTPServer",
    "already_snake" and the empty string to "id", "user_id", "http_server",
    "already_snake" and the empty string. *)
Theorem camelToSnake_fixtures :
  camelToSnake "ID" = "id"
  ∧ camelToSnake "UserID" = "user_id"
  ∧ camelToSnake "HTTPServer" = "http_server"
  ∧ camelToSnake "already_snake" = "already_snake"
  ∧ camelToSnake "" = "".
Proof. repeat split; vm_compute; reflexivity. Qed.

(** ** Import aliases *)

Lemma path_Base_nonempty (p : string) : path_Base p ≠ "".
Proof.
  unfold path_Base. case_bool_decide; [done|]. by case_bool_decide.
Qed.

Lemma alias_candidate_inj (p : string) (i j : nat) :
  alias_candidate p i = alias_candidate p j → i = j.
Proof.
  unfold alias_candidate.
  destruct i as [|i], j as [|j]; simpl; [done|..].
  - intros Heq. symmetry in Heq. apply append_eq_self in Heq.
    by apply Sprint_nat_nonempty in Heq.
  - intros Heq. apply append_eq_self in Heq.
    by apply Sprint_nat_nonempty in Heq.
  - intros Heq. by apply (inj (String.app _)), Sprint_nat_inj in Heq.
Qed.

Lemma alias_candidate_nonempty (p : string) (i : nat) : alias_candidate p i ≠ "".
Proof.
  unfold alias_candidate. pose proof (path_Base_nonempty p) as Hb.
  destruct (0 <? i)%nat; [|done].
  destruct (path_Base p) as [|c s]; [done|]. by rewrite append_cons.
Qed.

Lemma alias_exists_spec (m : gmap string string) (a : string) :
  alias_exists m a = true ↔ ∃ p, m !! p = Some a.
Proof.
  unfold alias_exists. rewrite existsb_exists. split.
  - intros ([p b] & Hin & Hb). apply bool_decide_eq_true in Hb. simpl in Hb. subst b.
    exists p. by apply elem_of_map_to_list, list_elem_of_In.
  - intros [p Hp]. exists (p, a). split; [|by apply bool_decide_eq_true].
    by apply list_elem_of_In, elem_of_map_to_list.
Qed.

Lemma alias_exists_false (m : gmap string string) (a : string) :
  alias_exists m a = false ↔ ∀ p, m !! p ≠ Some a.
Proof.
  rewrite <-not_true_iff_false, alias_exists_spec. split.
  - intros Hno p Hp. apply Hno. by exists p.
  - intros Hno [p Hp]. by apply (Hno p).
Qed.

Lemma pkgAlias_loop_scan (fuel : nat) (m : gmap string string) (p : string) (i : nat) :
  pkgAlias_loop fuel m p i = scan (alias_exists m) (alias_candidate p) fuel i.
Proof.
  revert i. induction fuel as [|fuel IH]; intros i; simpl; [done|]. by rewrite IH.
Qed.

Lemma pkgAlias_loop_total (m : gmap string string) (p : string) :
  is_Some (pkgAlias_loop (S (size m)) m p 0).
Proof.
  rewrite pkgAlias_loop_scan.
  apply (scan_total _ _ ((map_to_list m).*2)).
  - apply alias_candidate_inj.
  - intros a [q Hq]%alias_exists_spec.
    apply list_elem_of_fmap. exists (q, a). split; [done|].
    by apply elem_of_map_to_list.
  - rewrite length_fmap, length_map_to_list. lia.
Qed.

Lemma map_inj_NoDup (m : gmap string string) :
  NoDup (map_to_list m).*2 ↔ map_inj m.
Proof.
  split.
  - intros Hnd p q a Hp%elem_of_map_to_list Hq%elem_of_map_to_list.
    revert Hnd Hp Hq. generalize (map_to_list m). intros l.
    induction l as [|[k v] l IH]; [by intros _ ?%elem_of_nil|].
    rewrite fmap_cons, NoDup_cons, !elem_of_cons. simpl.
    intros [Hv Hnd] [Hp|Hp] [Hq|Hq].
    + congruence.
    + injection Hp as <- <-. destruct Hv. apply list_elem_of_fmap. by exists (q, a).
    + injection Hq as <- <-. destruct Hv. apply list_elem_of_fmap. by exists (p, a).
    + by apply IH.
  - intros Hinj. apply NoDup_fmap_2_strong; [|apply NoDup_map_to_list].
    intros [p a] [q b] Hp%elem_of_map_to_list Hq%elem_of_map_to_list Hab.
    simpl in Hab. subst b. by rewrite (Hinj p q a).
Qed.

Lemma pkgAlias_registered (p a : string) (g : Generator) :
  imports g !! p = Some a → a ≠ "" → pkgAlias p g = Some (a, g).
Proof.
  intros Hp Ha. unfold pkgAlias. rewrite Hp. simpl.
  by rewrite bool_decide_eq_false_2.
Qed.

Lemma pkgAlias_fresh (p : string) (g : Generator) :
  default "" (imports g !! p) = "" →
  ∃ i, pkgAlias p g
       = Some (alias_candidate p i,
               set_imports (<[p := alias_candidate p i]> (imports g)) g)
     ∧ alias_exists (imports g) (alias_candidate p i) = false
     ∧ ∀ j, (j < i)%nat → alias_exists (imports g) (alias_candidate p j) = true.
Proof.
  intros Hp. unfold pkgAlias. rewrite Hp.
  rewrite bool_decide_eq_true_2 by done. cbn [negb].
  destruct (pkgAlias_loop_total (imports g) p) as [a Ha]. rewrite Ha. simpl.
  rewrite pkgAlias_loop_scan in Ha.
  apply scan_Some in Ha as (i & _ & -> & Hfree & Hbelow).
  exists i. split_and!; [done|done|]. intros j Hj. apply Hbelow. lia.
Qed.

Lemma pkgAlias_total (p : string) (g : Generator) : is_Some (pkgAlias p g).
Proof.
  destruct (decide (default "" (imports g !! p) = "")) as [Hp|Hp].
  - destruct (pkgAlias_fresh p g Hp) as (i & -> & _). by eexists.
  - unfold pkgAlias. rewrite bool_decide_eq_false_2 by done. by eexists.
Qed.

(** What a call leaves behind: the alias is recorded, nothing else moves. *)
Lemma pkgAlias_post (p a : string) (g g' : Generator) :
  pkgAlias p g = Some (a, g') →
  a ≠ ""
  ∧ imports g' !! p = Some a
  ∧ g' = set_imports (imports g') g
  ∧ (∀ q b, imports g !! q = Some b → b ≠ "" → imports g' !! q = Some b)
  ∧ (map_inj (imports g) → map_inj (imports g')).
Proof.
  destruct (decide (default "" (imports g !! p) = "")) as [Hp|Hp].
  - destruct (pkgAlias_fresh p g Hp) as (i & -> & Hfree & _). intros [= <- <-].
    destruct g; simpl in *.
    split_and!; [apply alias_candidate_nonempty|by rewrite lookup_insert_eq|done|..].
    + intros q b Hq Hb. destruct (decide (p = q)) as [->|Hne].
      * rewrite Hq in Hp. done.
      * by rewrite lookup_insert_ne.
    + intros Hinj q1 q2 b. rewrite alias_exists_false in Hfree.
      rewrite !lookup_insert. repeat case_decide; intros; simplify_eq; try done.
      * by destruct (Hfree q2).
      * by destruct (Hfree q1).
      * by eapply Hinj.
  - unfold pkgAlias. rewrite bool_decide_eq_false_2 by done. simpl. intros [= <- <-].
    destruct (imports g !! p) as [a|] eqn:Hlook; [|done]. simpl in *.
    split_and!; [done|done|by destruct g|done|done].
Qed.

Lemma pkgAlias_idempotent (p a : string) (g g' : Generator) :
  pkgAlias p g = Some (a, g') → pkgAlias p g' = Some (a, g').
Proof.
  intros (Ha & Hp & _)%pkgAlias_post. by apply pkgAlias_registered.
Qed.

Lemma pkgAliases_post (paths : list string) (g : Generator) :
  map_inj (imports g) →
  ∃ aliases g',
    pkgAliases paths g = Some (aliases, g')
    ∧ length aliases = length paths
    ∧ map_inj (imports g')
    ∧ (∀ q b, imports g !! q = Some b → b ≠ "" → imports g' !! q = Some b)
    ∧ (∀ i p a, paths !! i = Some p → aliases !! i = Some a →
         imports g' !! p = Some a ∧ a ≠ "").
Proof.
  revert g. induction paths as [|p paths IH]; intros g Hinj.
  - exists [], g. by split_and!.
  - destruct (pkgAlias_total p g) as [[a g1] Hcall].
    pose proof (pkgAlias_post _ _ _ _ Hcall) as (Ha & Hp & _ & Hkeep & Hinj1).
    destruct (IH g1 (Hinj1 Hinj)) as (aliases & g' & Hrun & Hlen & Hinj' & Hkeep' & Hrec).
    exists (a :: aliases), g'. simpl. rewrite Hcall. simpl. rewrite Hrun. simpl.
    split_and!; [done|by rewrite Hlen|done|by auto|].
    intros [|i] q b; simpl.
    + intros [= <-] [= <-]. auto.
    + apply Hrec.
Qed.

(** C7: from a generator whose aliases are pairwise different (as they are
    in a new one), every sequence of calls of the alias allocator returns;
    two calls return the same alias exactly when they are for the same path
    (idempotent, and injective across paths); each returned alias is recorded
    for its path in the generator the calls leave, whose aliases are again
    pairwise different; and for a path with no alias yet, the alias is the
    first candidate, in the sequence base, base1, base2, ..., that is no
    alias of the map, and it is stored under the path. *)
Theorem pkgAlias_spec (g : Generator) (paths : list string) :
  NoDup (map_to_list (imports g)).*2 →
  (∃ aliases g',
    pkgAliases paths g = Some (aliases, g')
    ∧ length aliases = length paths
    ∧ NoDup (map_to_list (imports g')).*2
    ∧ (∀ i j p q a b,
         paths !! i = Some p → paths !! j = Some q →
         aliases !! i = Some a → aliases !! j = Some b →
         (p = q ↔ a = b))
    ∧ (∀ i p a, paths !! i = Some p → aliases !! i = Some a →
         imports g' !! p = Some a ∧ pkgAlias p g' = Some (a, g')))
  ∧ (∀ p, default "" (imports g !! p) = "" →
      ∃ i, pkgAlias p g
           = Some (alias_candidate p i,
                   set_imports (<[p := alias_candidate p i]> (imports g)) g)
         ∧ alias_exists (imports g) (alias_candidate p i) = false
         ∧ (∀ j, (j < i)%nat → alias_exists (imports g) (alias_candidate p j) = true))
  ∧ (∀ p, alias_candidate p 0 = path_Base p
          ∧ ∀ i, alias_candidate p (S i) = path_Base p +:+ Sprint_nat (S i)).
Proof.
  intros Hinj%map_inj_NoDup. split_and!.
  - destruct (pkgAliases_post paths g Hinj)
      as (aliases & g' & Hrun & Hlen & Hinj' & _ & Hrec).
    exists aliases, g'. split_and!; [done|done|by apply map_inj_NoDup|..].
    + intros i j p q a b Hp Hq Ha Hb.
      destruct (Hrec _ _ _ Hp Ha) as [Hpa _], (Hrec _ _ _ Hq Hb) as [Hqb _].
      split; [intros ->; congruence|intros ->; by eapply Hinj'].
    + intros i p a Hp Ha. destruct (Hrec _ _ _ Hp Ha) as [Hpa Hne].
      split; [done|]. by apply pkgAlias_registered.
  - intros p. apply pkgAlias_fresh.
  - done.
Qed.

Lemma pkgAlias_spec_witness :
  NoDup (map_to_list (imports NewGenerator)).*2
  ∧ ∃ aliases g',
      pkgAliases ["x/json"; "encoding/json"; "y/json"; "x/json"] NewGenerator
      = Some (aliases, g')
      ∧ aliases = ["json1"; "json"; "json2"; "json1"].
Proof.
  assert (NoDup (map_to_list (imports NewGenerator)).*2) as Hnd.
  { apply (bool_decide_unpack _). vm_compute. exact I. }
  split; [exact Hnd|].
  destruct (pkgAlias_spec NewGenerator
    ["x/json"; "encoding/json"; "y/json"; "x/json"] Hnd)
    as [(aliases & g' & Hrun & _) _].
  exists aliases, g'. split; [exact Hrun|].
  vm_compute in Hrun. by injection Hrun as <- _.
Defined.

(** ** Type references *)

(** C10: the textual reference to a type is the host's rendering of the type
    when the type is unnamed or has no package path; else its bare name when
    its package is the output package; else the alias allocated for its
    package path, a dot, and its name. *)
Theorem getType_spec (t : rtype) (g : Generator) :
  (reflect.Name t = "" ∨ reflect.PkgPath t = "" →
     getType t g = Some (reflect.String t, g))
  ∧ (reflect.Name t ≠ "" → reflect.PkgPath t ≠ "" →
     reflect.PkgPath t = pkgPath g →
     getType t g = Some (reflect.Name t, g))
  ∧ (reflect.Name t ≠ "" → reflect.PkgPath t ≠ "" →
     reflect.PkgPath t ≠ pkgPath g →
     ∃ alias g',
       pkgAlias (reflect.PkgPath t) g = Some (alias, g')
       ∧ imports g' !! reflect.PkgPath t = Some alias
       ∧ getType t g = Some (alias +:+ "." +:+ reflect.Name t, g')).
Proof.
  unfold getType. split_and!.
  - intros [Hn|Hp].
    + by rewrite (bool_decide_eq_true_2 _ Hn).
    + rewrite (bool_decide_eq_true_2 _ Hp). by rewrite orb_true_r.
  - intros Hn Hp Hsame.
    by rewrite (bool_decide_eq_false_2 _ Hn), (bool_decide_eq_false_2 _ Hp),
      (bool_decide_eq_true_2 _ Hsame).
  - intros Hn Hp Hother.
    rewrite (bool_decide_eq_false_2 _ Hn), (bool_decide_eq_false_2 _ Hp),
      (bool_decide_eq_false_2 _ Hother). cbn [orb].
    destruct (pkgAlias_total (reflect.PkgPath t) g) as [[alias g'] Hcall].
    exists alias, g'. rewrite Hcall. simpl.
    by pose proof (pkgAlias_post _ _ _ _ Hcall) as (_ & ? & _).
Qed.

Lemma getType_spec_witness :
  let g := SetPkg "out" "example.com/out" NewGenerator in
  getType type_anonymous g = Some ("struct { X int }", g)
  ∧ getType type_local g = Some ("Local", g)
  ∧ ∃ alias g', getType type_foreign g = Some (alias +:+ "." +:+ "Doc", g')
                ∧ alias = "json1".
Proof.
  intros g. split_and!.
  - apply (proj1 (getType_spec type_anonymous g)). by left.
  - by apply (proj1 (proj2 (getType_spec type_local g))).
  - destruct (proj2 (proj2 (getType_spec type_foreign g)))
      as (alias & g' & Hcall & _ & Hget); [done..|].
    exists alias, g'. split; [exact Hget|].
    vm_compute in Hcall. by injection Hcall as <- _.
Defined.

(** ** Function names *)

Lemma elem_of_range_map {V : Type} (sh : shuffle) (m : gmap string V) (k : string) (v : V) :
  (k, v) ∈ range_map sh m ↔ m !! k = Some v.
Proof.
  unfold range_map. rewrite (sh_perm sh _ (map_to_list m)).
  apply elem_of_map_to_list.
Qed.

Lemma functionName_loop_scan (fuel : nat) (regs : gmap string rtype) (name : string) (i : nat) :
  functionName_loop fuel regs name i
  = scan (λ nm, bool_decide (is_Some (regs !! nm))) (λ i, name +:+ Sprint_nat i) fuel i.
Proof.
  revert i. induction fuel as [|fuel IH]; intros i; simpl; [done|]. by rewrite IH.
Qed.

Lemma functionName_loop_total (regs : gmap string rtype) (name : string) :
  is_Some (functionName_loop (S (size regs)) regs name 1).
Proof.
  rewrite functionName_loop_scan.
  apply (scan_total _ _ ((map_to_list regs).*1)).
  - intros j k Hjk. by apply (inj (String.app _)), Sprint_nat_inj in Hjk.
  - intros nm [t Ht]%bool_decide_eq_true.
    apply list_elem_of_fmap. exists (nm, t). split; [done|].
    by apply elem_of_map_to_list.
  - rewrite length_fmap, length_map_to_list. lia.
Qed.

Lemma functionName_loop_fresh (fuel : nat) (regs : gmap string rtype) (name nm : string) (i : nat) :
  functionName_loop fuel regs name i = Some nm →
  regs !! nm = None ∧ ∃ j, nm = name +:+ Sprint_nat j.
Proof.
  rewrite functionName_loop_scan.
  intros (j & _ & -> & Hfree & _)%scan_Some. split; [|by exists j].
  apply bool_decide_eq_false in Hfree. by apply eq_None_not_Some.
Qed.

Lemma functionName_cases (sh : shuffle) (prefix : string) (t : rtype) (g : Generator) :
  ∃ name g', functionName sh prefix t g = Some (name, g')
             ∧ functionName_case sh prefix t g name g'.
Proof.
  unfold functionName.
  destruct (functionNames g !! (prefix +:+ safeName t)) as [e|] eqn:Hname.
  - case_bool_decide as He.
    + subst e. eexists _, _. split; [done|]. apply fn_claim. by right.
    + destruct (find _ _) as [[name1 t1]|] eqn:Hfind.
      * apply find_some in Hfind as [Hin Hmatch].
        apply list_elem_of_In, elem_of_range_map in Hin.
        apply andb_true_iff in Hmatch as [Ht Hpre].
        apply bool_decide_eq_true in Ht. simpl in *. subst t1.
        eexists _, _. split; [done|]. by eapply fn_found.
      * destruct (functionName_loop_total (functionNames g) (prefix +:+ safeName t))
          as [nm Hnm].
        rewrite Hnm. simpl. eexists _, _. split; [done|].
        apply functionName_loop_fresh in Hnm as [Hfree [j ->]].
        eapply fn_mint; [done..| |done].
        intros name1 Hname1.
        pose proof (find_none _ _ Hfind (name1, t)) as Hno.
        simpl in Hno. rewrite bool_decide_eq_true_2 in Hno by done.
        apply Hno, list_elem_of_In, elem_of_range_map. done.
  - eexists _, _. split; [done|]. apply fn_claim. by left.
Qed.

Lemma functionName_total (sh : shuffle) (prefix : string) (t : rtype) (g : Generator) :
  is_Some (functionName sh prefix t g).
Proof. destruct (functionName_cases sh prefix t g) as (name & g' & -> & _). by eexists. Qed.

Lemma functionName_inv (sh : shuffle) (prefix : string) (t : rtype) (g : Generator)
    (name : string) (g' : Generator) :
  functionName sh prefix t g = Some (name, g') →
  functionName_case sh prefix t g name g'.
Proof.
  destruct (functionName_cases sh prefix t g) as (name' & g'' & Hcall & Hcase).
  rewrite Hcall. by intros [= <- <-].
Qed.

(** The returned name is registered for the type and starts with the prefix;
    no registration is lost or changed; only the registry moves. *)
Lemma functionName_post (sh : shuffle) (prefix : string) (t : rtype) (g : Generator)
    (name : string) (g' : Generator) :
  functionName sh prefix t g = Some (name, g') →
  functionNames g' !! name = Some t
  ∧ HasPrefix name prefix = true
  ∧ functionNames g ⊆ functionNames g'
  ∧ g' = set_functionNames (functionNames g') g.
Proof.
  intros Hcase%functionName_inv. destruct Hcase as [name0 Hfree|e name1 He Hne Hreg Hpre|e j name0 nm He Hne Hnone Hfree].
  - simpl. split_and!; [by rewrite lookup_insert_eq|apply HasPrefix_append| |done].
    destruct Hfree as [Hfree|Hsame].
    + by apply insert_subseteq.
    + by rewrite insert_id.
  - split_and!; [done|done|done|by destruct g].
  - simpl. split_and!; [by rewrite lookup_insert_eq| |by apply insert_subseteq|done].
    unfold nm, name0. rewrite append_assoc. apply HasPrefix_append.
Qed.

Lemma name_all_post (calls : list naming) (g : Generator) :
  ∃ names g',
    name_all calls g = Some (names, g')
    ∧ length names = length calls
    ∧ functionNames g ⊆ functionNames g'
    ∧ ∀ i c name, calls !! i = Some c → names !! i = Some name →
        functionNames g' !! name = Some (naming_type c)
        ∧ HasPrefix name (naming_prefix c) = true.
Proof.
  revert g. induction calls as [|c calls IH]; intros g.
  - exists [], g. by split_and!.
  - destruct (functionName_total (naming_order c) (naming_prefix c) (naming_type c) g)
      as [[name g1] Hcall].
    pose proof (functionName_post _ _ _ _ _ _ Hcall) as (Hreg & Hpre & Hsub & _).
    destruct (IH g1) as (names & g' & Hrun & Hlen & Hsub' & Hrec).
    exists (name :: names), g'. simpl. rewrite Hcall. simpl. rewrite Hrun. simpl.
    split_and!; [done|by rewrite Hlen|by etrans|].
    intros [|i] c' name'; simpl.
    + intros [= <-] [= <-]. split; [|done].
      by eapply lookup_weaken.
    + apply Hrec.
Qed.

(** C4: whatever the registry holds and whatever the prefixes and iteration
    orders are, every sequence of calls of the namer returns, any two calls
    for different types return different names (also when the escaped names
    of the types collide), and every name registered for a type before the
    calls is registered for the same type after them. *)
Theorem functionName_distinct (g : Generator) (calls : list naming) :
  ∃ names g',
    name_all calls g = Some (names, g')
    ∧ length names = length calls
    ∧ (∀ i j ci cj ni nj,
         calls !! i = Some ci → calls !! j = Some cj →
         names !! i = Some ni → names !! j = Some nj →
         naming_type ci ≠ naming_type cj → ni ≠ nj)
    ∧ (∀ name t, functionNames g !! name = Some t → functionNames g' !! name = Some t).
Proof.
  destruct (name_all_post calls g) as (names & g' & Hrun & Hlen & Hsub & Hrec).
  exists names, g'. split_and!; [done|done|..].
  - intros i j ci cj ni nj Hci Hcj Hni Hnj Hne Heq. subst nj.
    destruct (Hrec _ _ _ Hci Hni) as [Hi _], (Hrec _ _ _ Hcj Hnj) as [Hj _].
    congruence.
  - intros name t Hname. by eapply lookup_weaken.
Qed.

Lemma prefix_free_spec (P : list string) (p q : string) :
  prefix_free P → p ∈ P → q ∈ P → HasPrefix q p = true → p = q.
Proof.
  intros HP Hp Hq. unfold prefix_free in HP.
  rewrite Forall_forall in HP. specialize (HP p Hp).
  rewrite Forall_forall in HP. by apply HP.
Qed.

Lemma prefix_free_same (P : list string) (p q n : string) :
  prefix_free P → p ∈ P → q ∈ P →
  HasPrefix n p = true → HasPrefix n q = true → p = q.
Proof.
  intros HP Hp Hq Hnp Hnq.
  destruct (HasPrefix_comparable n p q Hnp Hnq) as [Hpq|Hqp].
  - symmetry. by eapply prefix_free_spec.
  - by eapply prefix_free_spec.
Qed.

Lemma registry_ok_empty (P : list string) : registry_ok P ∅.
Proof. split; intros *; by rewrite lookup_empty. Qed.

Lemma registry_ok_insert (P : list string) (regs : gmap string rtype)
    (p nm : string) (t : rtype) :
  prefix_free P → p ∈ P → registry_ok P regs →
  regs !! nm = None → HasPrefix nm p = true →
  (nm = p +:+ safeName t ∨ ∃ t', regs !! (p +:+ safeName t) = Some t' ∧ t' ≠ t) →
  (∀ n, regs !! n = Some t → HasPrefix n p = false) →
  registry_ok P (<[nm := t]> regs).
Proof.
  intros HP Hp [Hcanon Huniq] Hfree Hpre Hnm Hnone.
  assert (∀ n t0, regs !! n = Some t0 → <[nm := t]> regs !! n = Some t0) as Hkeep.
  { intros n t0 Hn. rewrite lookup_insert_ne; [done|]. intros ->. congruence. }
  split.
  - intros q n t0 Hq. destruct (decide (nm = n)) as [<-|Hne].
    + rewrite lookup_insert_eq. intros [= <-] Hnq.
      assert (p = q) as <- by (by eapply prefix_free_same).
      destruct Hnm as [->|(t' & Ht' & Hne)]; [by left|right].
      exists t'. split; [by apply Hkeep|done].
    + rewrite lookup_insert_ne by done. intros Hn Hnq.
      destruct (Hcanon q n t0 Hq Hn Hnq) as [->|(t' & Ht' & Hne')]; [by left|right].
      exists t'. split; [by apply Hkeep|done].
  - intros q n1 n2 t0 Hq.
    destruct (decide (nm = n1)) as [<-|Hne1], (decide (nm = n2)) as [<-|Hne2];
      rewrite ?lookup_insert_eq, ?lookup_insert_ne by done; [done|..].
    + intros [= <-] Hn2 Hnq Hn2q.
      assert (p = q) as <- by (by eapply prefix_free_same).
      rewrite (Hnone n2 Hn2) in Hn2q. done.
    + intros Hn1 [= <-] Hn1q Hnq.
      assert (p = q) as <- by (by eapply prefix_free_same).
      rewrite (Hnone n1 Hn1) in Hn1q. done.
    + by apply Huniq.
Qed.

Lemma functionName_registry_ok (P : list string) (sh : shuffle) (prefix : string)
    (t : rtype) (g : Generator) (name : string) (g' : Generator) :
  prefix_free P → prefix ∈ P → registry_ok P (functionNames g) →
  functionName sh prefix t g = Some (name, g') →
  registry_ok P (functionNames g').
Proof.
  intros HP Hp Hok Hcase%functionName_inv.
  destruct Hcase as [name0 Hfree|e name1 He Hne Hreg Hpre|e j name0 nm He Hne Hnone Hfree];
    simpl; [|done|].
  - subst name0. destruct Hfree as [Hfree|Hsame]; [|by rewrite insert_id].
    eapply registry_ok_insert; [done..|apply HasPrefix_append|by left|].
    intros n Hn. apply not_true_iff_false. intros Hpre.
    destruct Hok as [Hcanon _].
    destruct (Hcanon prefix n t Hp Hn Hpre) as [->|(t' & Ht' & _)]; congruence.
  - subst nm name0. eapply registry_ok_insert; [done..| |right; by exists e|done].
    rewrite append_assoc. apply HasPrefix_append.
Qed.

Lemma name_all_registry_ok (P : list string) (calls : list naming) (g : Generator) :
  prefix_free P → naming_prefix <$> calls ⊆ P → registry_ok P (functionNames g) →
  ∀ names g', name_all calls g = Some (names, g') → registry_ok P (functionNames g').
Proof.
  intros HP. revert g. induction calls as [|c calls IH]; intros g Hsub Hok names g'; simpl.
  - by intros [= _ <-].
  - destruct (functionName _ _ _ g) as [[name g1]|] eqn:Hcall; [simpl|done].
    destruct (name_all calls g1) as [[names1 g2]|] eqn:Hrun; [simpl|done].
    intros [= _ <-]. eapply (IH g1); [set_solver| |done].
    eapply functionName_registry_ok; [done| |done..]. set_solver.
Qed.

(** C5, as the code has it: on a fresh registry, and when no prefix used in
    the calls is a proper prefix of another one, every sequence of calls of
    the namer returns, and two calls with the same prefix and type return the
    same name, whatever was named in between, in whatever order the search
    ranges over the registry, and also after a clash was resolved by a
    suffix. *)
Theorem functionName_idempotent (g : Generator) (calls : list naming) :
  functionNames g = ∅ →
  prefix_free (naming_prefix <$> calls) →
  ∃ names g',
    name_all calls g = Some (names, g')
    ∧ length names = length calls
    ∧ ∀ i j ci cj ni nj,
        calls !! i = Some ci → calls !! j = Some cj →
        names !! i = Some ni → names !! j = Some nj →
        naming_prefix ci = naming_prefix cj → naming_type ci = naming_type cj →
        ni = nj.
Proof.
  intros Hempty HP.
  destruct (name_all_post calls g) as (names & g' & Hrun & Hlen & _ & Hrec).
  exists names, g'. split_and!; [done|done|].
  intros i j ci cj ni nj Hci Hcj Hni Hnj Hp Ht.
  assert (registry_ok (naming_prefix <$> calls) (functionNames g')) as [_ Huniq].
  { eapply name_all_registry_ok; [done|done| |done].
    rewrite Hempty. apply registry_ok_empty. }
  destruct (Hrec _ _ _ Hci Hni) as [Hi Hipre], (Hrec _ _ _ Hcj Hnj) as [Hj Hjpre].
  eapply (Huniq (naming_prefix ci)); [|done|by rewrite Ht|done|by rewrite Hp].
  apply list_elem_of_fmap. exists ci. split; [done|]. by eapply list_elem_of_lookup_2.
Qed.

Lemma functionName_idempotent_witness :
  functionNames NewGenerator = ∅
  ∧ prefix_free (naming_prefix <$> calls_two_prefixes)
  ∧ ∃ names g',
      name_all calls_two_prefixes NewGenerator = Some (names, g')
      ∧ names = [ "easyjson_decode_a_b_T"; "easyjson_decode_a_b_T1";
                  "easyjson_encode_a_b_T"; "easyjson_encode_a_b_T1";
                  "easyjson_decode_a_b_T1"; "easyjson_encode_a_b_T" ].
Proof.
  assert (prefix_free (naming_prefix <$> calls_two_prefixes)) as HP.
  { apply (bool_decide_unpack _). vm_compute. exact I. }
  split_and!; [reflexivity|exact HP|].
  destruct (functionName_idempotent NewGenerator calls_two_prefixes eq_refl HP)
    as (names & g' & Hrun & _).
  exists names, g'. split; [exact Hrun|].
  vm_compute in Hrun. by injection Hrun as <- _.
Defined.

(** The claim of C5 as it is written fails: the second and the fourth call
    below name the same type under the same prefix and return different
    names, because a name that the type received under the longer prefix also
    starts with the shorter one. *)
Lemma functionName_not_idempotent :
  fst <$> name_all calls_overlapping NewGenerator
  = Some [ "easyjson_a_b_T"; "easyjson_a_b_T1";
           "easyjson_decode_a_b_T"; "easyjson_decode_a_b_T" ].
Proof. vm_compute. reflexivity. Qed.

(** ** The header *)

Lemma import_lines_order (sh1 sh2 : shuffle) (g : Generator) :
  (import_lines sh1 sh2 g).*1 = (range_map sh2 (imports g)).*2.
Proof.
  unfold import_lines. destruct (collect_aliases sh1 (imports g)) as [aliases byAlias].
  rewrite <-list_fmap_compose. by apply list_fmap_ext.
Qed.

(** C2 fails on the code: the import lines follow the order in which the
    printing loop ranges over the import map, not the sorted slice of
    aliases.  On a new generator, when that loop visits the map in the order
    in which [NewGenerator] lists it, the aliases are printed as jwriter,
    jlexer, json, which is not their ascending order jlexer, json, jwriter. *)
Theorem import_lines_unsorted :
  (import_lines sh_id sh_id NewGenerator).*1 = ["jwriter"; "jlexer"; "json"]
  ∧ sort_Strings (import_lines sh_id sh_id NewGenerator).*1 = ["jlexer"; "json"; "jwriter"]
  ∧ ¬ Sorted String.le ((import_lines sh_id sh_id NewGenerator).*1).
Proof.
  split_and!; [by vm_compute..|].
  assert ((import_lines sh_id sh_id NewGenerator).*1 = ["jwriter"; "jlexer"; "json"])
    as -> by (by vm_compute).
  intros Hsorted. apply Sorted_inv in Hsorted as [_ Hhd].
  apply HdRel_inv in Hhd. by vm_compute in Hhd.
Qed.

Lemma existsb_eq_elem_of (t : rtype) (l : list rtype) :
  existsb (λ t1, bool_decide (t1 = t)) l = true ↔ t ∈ l.
Proof.
  rewrite existsb_exists. split.
  - intros (t1 & Hin & ->%bool_decide_eq_true). by apply list_elem_of_In.
  - intros Hin. exists t. split; [by apply list_elem_of_In|by apply bool_decide_eq_true].
Qed.

Lemma addType_known (t : rtype) (g : Generator) :
  flag (typesSeen g) t = true ∨ t ∈ typesUnseen g → addType t g = g.
Proof.
  unfold addType. intros [Hseen|Hpending]; [by rewrite Hseen|].
  destruct (flag _ _); [done|]. apply existsb_eq_elem_of in Hpending. by rewrite Hpending.
Qed.

Lemma addType_new (t : rtype) (g : Generator) :
  flag (typesSeen g) t = false → t ∉ typesUnseen g →
  addType t g = set_typesUnseen (typesUnseen g ++ [t]) g.
Proof.
  unfold addType. intros -> Hpending.
  rewrite <-existsb_eq_elem_of in Hpending. apply not_true_is_false in Hpending.
  by rewrite Hpending.
Qed.

Lemma addType_cases (t : rtype) (g : Generator) :
  (flag (typesSeen g) t = true ∨ t ∈ typesUnseen g) ∧ addType t g = g
  ∨ flag (typesSeen g) t = false ∧ t ∉ typesUnseen g
    ∧ addType t g = set_typesUnseen (typesUnseen g ++ [t]) g.
Proof.
  destruct (flag (typesSeen g) t) eqn:Hseen.
  - left. split; [by left|]. apply addType_known. by left.
  - destruct (decide (t ∈ typesUnseen g)) as [Hin|Hout].
    + left. split; [by right|]. apply addType_known. by right.
    + right. split_and!; [done..|]. by apply addType_new.
Qed.

Lemma addType_pending_ok (t : rtype) (g : Generator) :
  pending_ok g → pending_ok (addType t g).
Proof.
  intros [Hnd Hunseen].
  destruct (addType_cases t g) as [[_ ->]|(Hseen & Hout & ->)]; [done|].
  split; simpl.
  - apply NoDup_app. split_and!; [done| |apply NoDup_singleton].
    intros x Hx ->%list_elem_of_singleton. done.
  - intros x [Hx| ->%list_elem_of_singleton]%elem_of_app; auto.
Qed.

Lemma addType_registered (t : rtype) (g : Generator) :
  flag (typesSeen (addType t g)) t = true ∨ t ∈ typesUnseen (addType t g).
Proof.
  destruct (addType_cases t g) as [[Hknown ->]|(_ & _ & ->)]; [done|].
  right. simpl. apply elem_of_app. right. by apply list_elem_of_singleton.
Qed.

Lemma addType_typesUnseen (t x : rtype) (g : Generator) :
  x ∈ typesUnseen (addType t g) ↔ x ∈ typesUnseen g ∨ x = t ∧ flag (typesSeen g) t = false.
Proof.
  destruct (addType_cases t g) as [[Hknown ->]|(Hseen & Hout & ->)].
  - split; [by left|]. intros [Hx|[-> Hseen]]; [done|].
    destruct Hknown as [Hknown|Hknown]; [congruence|done].
  - simpl. rewrite elem_of_app, list_elem_of_singleton. naive_solver.
Qed.

Lemma addType_frame (t : rtype) (g : Generator) :
  addType t g = set_typesUnseen (typesUnseen (addType t g)) g.
Proof.
  destruct (addType_cases t g) as [[_ ->]|(_ & _ & ->)]; by destruct g.
Qed.

Lemma Add_pending_ok (t : rtype) (g : Generator) : pending_ok g → pending_ok (Add t g).
Proof. intros Hok. by apply (addType_pending_ok t) in Hok. Qed.

Lemma elem_of_visited (t : rtype) (evs : list event) :
  t ∈ visited evs ↔ EvVisit t ∈ evs.
Proof.
  unfold visited. rewrite list_elem_of_omap. split.
  - intros (e & He & Ht). destruct e; simplify_eq. done.
  - intros He. by exists (EvVisit t).
Qed.

Lemma visited_app (evs1 evs2 : list event) :
  visited (evs1 ++ evs2) = visited evs1 ++ visited evs2.
Proof. apply omap_app. Qed.

Lemma emitted_app (evs1 evs2 : list event) :
  emitted (evs1 ++ evs2) = emitted evs1 +:+ emitted evs2.
Proof.
  induction evs1 as [|e evs1 IH]; [done|].
  destruct e; simpl; rewrite ?IH; try done. by rewrite append_assoc.
Qed.

Lemma clean_app (evs1 evs2 : list event) :
  clean (evs1 ++ evs2) ↔ clean evs1 ∧ clean evs2.
Proof. unfold clean. setoid_rewrite elem_of_app. naive_solver. Qed.

Lemma quiet_clean (evs : list event) : quiet evs → clean evs.
Proof.
  intros Hq k t e Hin. unfold quiet in Hq. rewrite Forall_forall in Hq.
  by apply Hq in Hin.
Qed.

Lemma quiet_no_visit (evs : list event) (t : rtype) : quiet evs → EvVisit t ∉ evs.
Proof.
  intros Hq Hin. unfold quiet in Hq. rewrite Forall_forall in Hq. by apply Hq in Hin.
Qed.

Lemma quiet_no_call (evs : list event) (k : kind) (t : rtype) (r : option error) :
  quiet evs → EvCall k t r ∉ evs.
Proof.
  intros Hq Hin. unfold quiet in Hq. rewrite Forall_forall in Hq. by apply Hq in Hin.
Qed.

Lemma quiet_app (evs1 evs2 : list event) : quiet evs1 → quiet evs2 → quiet (evs1 ++ evs2).
Proof. apply Forall_app_2. Qed.

Lemma advances_refl (m : Machine) : advances [] m m.
Proof.
  split; try done.
  - by rewrite app_nil_r.
  - by rewrite append_nil_r.
  - intros t. rewrite elem_of_nil. naive_solver.
  - intros Hok. split_and!; [done|apply NoDup_nil_2|]. by intros t ?%elem_of_nil.
  - intros t [?|?%elem_of_nil]; [by right|done].
  - intros t [?|?%elem_of_nil]; [by left|done].
Qed.

Lemma advances_trans (evs1 evs2 : list event) (m m1 m2 : Machine) :
  advances evs1 m m1 → advances evs2 m1 m2 → advances (evs1 ++ evs2) m m2.
Proof.
  intros H1 H2. split.
  - by rewrite (adv_trace _ _ _ H2), (adv_trace _ _ _ H1), app_assoc.
  - by rewrite (adv_marshallers _ _ _ H2), (adv_marshallers _ _ _ H1).
  - by rewrite (adv_stdout _ _ _ H2), (adv_stdout _ _ _ H1).
  - by rewrite (adv_written _ _ _ H2), (adv_written _ _ _ H1).
  - by rewrite (adv_out _ _ _ H2), (adv_out _ _ _ H1), emitted_app, append_assoc.
  - intros t. rewrite (adv_seen _ _ _ H2), (adv_seen _ _ _ H1), elem_of_app. naive_solver.
  - intros Hok.
    destruct (adv_pending _ _ _ H1 Hok) as (Hok1 & Hnd1 & Hnew1).
    destruct (adv_pending _ _ _ H2 Hok1) as (Hok2 & Hnd2 & Hnew2).
    split_and!; [done| |].
    + rewrite visited_app. apply NoDup_app. split_and!; [done| |done].
      intros t Ht1%elem_of_visited Ht2%elem_of_visited.
      apply Hnew2 in Ht2. apply not_true_iff_false in Ht2. apply Ht2.
      apply (adv_seen _ _ _ H1). by right.
    + intros t [Ht|Ht]%elem_of_app; [by apply Hnew1|].
      apply Hnew2 in Ht. apply not_true_iff_false. intros Hseen.
      apply not_true_iff_false in Ht. apply Ht, (adv_seen _ _ _ H1). by left.
  - intros t Ht.
    assert (flag (typesSeen (gen m1)) t = true ∨ t ∈ typesUnseen (gen m1)
            ∨ EvRequest t ∈ evs2) as [Hseen|Hrest].
    { destruct Ht as [Ht|[Ht|Ht]%elem_of_app]; [| |by auto].
      - destruct (adv_registered _ _ _ H1 t); auto.
      - destruct (adv_registered _ _ _ H1 t); auto. }
    + left. apply (adv_seen _ _ _ H2). by left.
    + apply (adv_registered _ _ _ H2). destruct Hrest; auto.
  - intros t Ht.
    assert (t ∈ typesUnseen (gen m1) ∨ EvRequest t ∈ evs2 ∨ EvVisit t ∈ evs1)
      as [Hm1|[Hreq|Hvis]].
    { destruct Ht as [Ht|[Ht|Ht]%elem_of_app]; [| by auto |].
      - destruct (adv_origin _ _ _ H2 t); auto.
      - destruct (adv_origin _ _ _ H2 t); auto. }
    + destruct (adv_origin _ _ _ H1 t) as [?|?]; [by left|by left|].
      right. apply elem_of_app. by left.
    + right. apply elem_of_app. by right.
    + destruct (adv_origin _ _ _ H1 t) as [?|?]; [by right|by left|].
      right. apply elem_of_app. by left.
Qed.

Lemma advances_silent (evs : list event) (m m' : Machine) :
  trace m' = trace m ++ evs →
  Forall (λ e, match e with EvCall _ _ _ => True | _ => False end) evs →
  marshallers (gen m') = marshallers (gen m) →
  stdout m' = stdout m → written m' = written m →
  out (gen m') = out (gen m) →
  typesSeen (gen m') = typesSeen (gen m) →
  typesUnseen (gen m') = typesUnseen (gen m) →
  advances evs m m'.
Proof.
  intros Htrace Hcalls Hmarsh Hstdout Hwritten Hout Hseen Hunseen.
  rewrite Forall_forall in Hcalls.
  assert (emitted evs = "") as Hemit.
  { clear Htrace. induction evs as [|e evs IH]; [done|].
    pose proof (Hcalls e ltac:(left)) as He. destruct e; try done. simpl.
    apply IH. intros x Hx. apply Hcalls. by right. }
  assert (visited evs = []) as Hvis.
  { clear Htrace Hemit. induction evs as [|e evs IH]; [done|].
    pose proof (Hcalls e ltac:(left)) as He. destruct e; try done. simpl.
    apply IH. intros x Hx. apply Hcalls. by right. }
  split; try done.
  - by rewrite Hout, Hemit, append_nil_r.
  - intros t. rewrite Hseen. split; [by left|]. intros [?|Hin]; [done|].
    by apply Hcalls in Hin.
  - rewrite Hvis. intros [Hnd Hpend]. split_and!.
    + split; rewrite Hunseen, ?Hseen; done.
    + apply NoDup_nil_2.
    + intros t Hin. by apply Hcalls in Hin.
  - rewrite Hunseen. intros t [?|Hin]; [by right|]. by apply Hcalls in Hin.
  - rewrite Hunseen. intros t [?|Hin]; [by left|]. by apply Hcalls in Hin.
Qed.

Lemma advances_emit (s : string) (m : Machine) :
  advances [EvEmit s] m
    (record (EvEmit s) (with_gen (set_out (λ o, o +:+ s) (gen m)) m)).
Proof.
  split; simpl; try done.
  - by rewrite append_nil_r.
  - intros t. rewrite list_elem_of_singleton. naive_solver.
  - intros Hok. split_and!; [done|apply NoDup_nil_2|].
    by intros t [=]%list_elem_of_singleton.
  - intros t [?|[=]%list_elem_of_singleton]. by right.
  - intros t [?|[=]%list_elem_of_singleton]. by left.
Qed.

Lemma advances_request (t : rtype) (m : Machine) :
  advances [EvRequest t] m
    (record (EvRequest t) (with_gen (addType t (gen m)) m)).
Proof.
  assert (marshallers (addType t (gen m)) = marshallers (gen m)
          ∧ out (addType t (gen m)) = out (gen m)
          ∧ typesSeen (addType t (gen m)) = typesSeen (gen m)) as (Hmarsh & Hout & Hseen).
  { by destruct (addType_cases t (gen m)) as [[_ ->]|(_ & _ & ->)]. }
  split; simpl; try done.
  - by rewrite Hout, append_nil_r.
  - intros x. rewrite Hseen, list_elem_of_singleton. naive_solver.
  - intros Hok. split_and!; [by apply addType_pending_ok|apply NoDup_nil_2|].
    by intros x [=]%list_elem_of_singleton.
  - intros x [Hx|[= ->]%list_elem_of_singleton].
    + right. apply addType_typesUnseen. by left.
    + apply addType_registered.
  - intros x [[Hx|[-> _]]%addType_typesUnseen|[=]%list_elem_of_singleton].
    + by left.
    + right. by apply list_elem_of_singleton.
Qed.

Lemma getType_frame (t : rtype) (g : Generator) (name : string) (g' : Generator) :
  getType t g = Some (name, g') → g' = set_imports (imports g') g.
Proof.
  unfold getType. repeat case_match; try (intros [= _ <-]; by destruct g).
  destruct (pkgAlias _ g) as [[alias g1]|] eqn:Hcall; [simpl|done].
  intros [= _ <-]. by apply pkgAlias_post in Hcall as (_ & _ & ? & _).
Qed.

Lemma getType_total (t : rtype) (g : Generator) : is_Some (getType t g).
Proof.
  unfold getType. repeat case_match; try by eexists.
  destruct (pkgAlias_total (reflect.PkgPath t) g) as [[alias g'] ->]. by eexists.
Qed.

Ltac quiet_facts :=
  repeat match goal with
  | H : quiet ?q |- _ =>
      pose proof (λ k t r, quiet_no_call q k t r H);
      pose proof (λ t, quiet_no_visit q t H);
      pose proof (quiet_clean q H);
      clear H
  end.

Ltac split_events :=
  repeat (rewrite ?elem_of_cons, ?elem_of_app, ?list_elem_of_singleton in *).

Lemma body_events_visit (r : bool) (t x : rtype) (evs : list event) (err : option error) :
  body_events r t evs err → EvVisit x ∈ evs ↔ x = t.
Proof.
  intros Hb. destruct Hb; quiet_facts; split_events; naive_solver.
Qed.

Lemma body_events_call (r : bool) (t x : rtype) (k : kind) (res : option error)
    (evs : list event) (err : option error) :
  body_events r t evs err → EvCall k x res ∈ evs →
  x = t ∧ (k = Marshaller ∨ k = Unmarshaller → r = true).
Proof.
  intros Hb. destruct Hb; quiet_facts; split_events; naive_solver.
Qed.

Lemma body_events_complete (r : bool) (t : rtype) (evs : list event) :
  body_events r t evs None →
  clean evs
  ∧ EvCall Decoder t None ∈ evs ∧ EvCall Encoder t None ∈ evs
  ∧ (r = true → EvCall Marshaller t None ∈ evs ∧ EvCall Unmarshaller t None ∈ evs).
Proof.
  intros Hb. inversion Hb; subst; quiet_facts; unfold clean in *;
    split_and!; try (intros k0 t0 e0); split_events; naive_solver.
Qed.

Lemma body_events_failed (r : bool) (t : rtype) (evs : list event) (e : error) :
  body_events r t evs (Some e) →
  ∃ pre k, evs = pre ++ [EvCall k t (Some e)] ∧ clean pre.
Proof.
  intros Hb. inversion Hb; subst; quiet_facts.
  - exists (EvVisit t :: q1), Decoder. split; [done|].
    unfold clean in *. intros k0 t0 e0. split_events. naive_solver.
  - exists (EvVisit t :: q1 ++ EvCall Decoder t None :: q2), Encoder. split.
    + simpl. by rewrite <-app_assoc.
    + unfold clean in *. intros k0 t0 e0. split_events. naive_solver.
  - exists (EvVisit t :: q1 ++ EvCall Decoder t None :: q2 ++ EvCall Encoder t None :: q3),
      Marshaller. split.
    + simpl. rewrite <-app_assoc. simpl. by rewrite <-app_assoc.
    + unfold clean in *. intros k0 t0 e0. split_events. naive_solver.
  - exists (EvVisit t :: q1 ++ EvCall Decoder t None :: q2 ++ EvCall Encoder t None
              :: q3 ++ EvCall Marshaller t None :: q4), Unmarshaller. split.
    + simpl. rewrite <-app_assoc. simpl. rewrite <-app_assoc. simpl. by rewrite <-app_assoc.
    + unfold clean in *. intros k0 t0 e0. split_events. naive_solver.
Qed.

(** A trace of the loop is free of failures and the loop ran to its end, or
    the trace ends with the one failing call, whose error the loop returns. *)
Lemma loop_events_shape (R : rtype → bool) (evs : list event) (err : option error) :
  loop_events R evs err →
  err = None ∧ clean evs
  ∨ ∃ pre k t e, err = Some e ∧ evs = pre ++ [EvCall k t (Some e)] ∧ clean pre.
Proof.
  induction 1 as [|t evs e Hb|t evs rest err Hb Hrest IH].
  - left. split; [done|]. by intros k t e ?%elem_of_nil.
  - right. apply body_events_failed in Hb as (pre & k & -> & Hclean). by exists pre, k, t, e.
  - apply body_events_complete in Hb as (Hclean & _).
    destruct IH as [[-> Hc]|(pre & k & x & e & -> & -> & Hc)].
    + left. split; [done|]. by apply clean_app.
    + right. exists (evs ++ pre), k, x, e. split_and!; [done|by rewrite app_assoc|].
      by apply clean_app.
Qed.

Lemma loop_events_call (R : rtype → bool) (evs : list event) (err : option error)
    (k : kind) (x : rtype) (res : option error) :
  loop_events R evs err → EvCall k x res ∈ evs →
  EvVisit x ∈ evs ∧ (k = Marshaller ∨ k = Unmarshaller → R x = true).
Proof.
  induction 1 as [|t evs e Hb|t evs rest err Hb Hrest IH].
  - by intros ?%elem_of_nil.
  - intros Hin. destruct (body_events_call _ _ _ _ _ _ _ Hb Hin) as [-> HR].
    split; [|done]. by apply (body_events_visit _ _ _ _ _ Hb).
  - intros [Hin|Hin]%elem_of_app.
    + destruct (body_events_call _ _ _ _ _ _ _ Hb Hin) as [-> HR].
      split; [|done]. apply elem_of_app. left. by apply (body_events_visit _ _ _ _ _ Hb).
    + destruct (IH Hin) as [Hv HR]. split; [|done]. apply elem_of_app. by right.
Qed.

Lemma loop_events_complete (R : rtype → bool) (evs : list event) (x : rtype) :
  loop_events R evs None → EvVisit x ∈ evs →
  EvCall Decoder x None ∈ evs ∧ EvCall Encoder x None ∈ evs
  ∧ (R x = true → EvCall Marshaller x None ∈ evs ∧ EvCall Unmarshaller x None ∈ evs).
Proof.
  remember None as err eqn:Herr.
  induction 1 as [|t evs e Hb|t evs rest err Hb Hrest IH]; [by intros ?%elem_of_nil|done|].
  subst err. intros [Hin|Hin]%elem_of_app.
  - apply (body_events_visit _ _ _ _ _ Hb) in Hin as ->.
    apply body_events_complete in Hb as (_ & HD & HE & HM).
    rewrite !elem_of_app. split_and!; [by left|by left|].
    intros HR. destruct (HM HR). split; by left.
  - destruct (IH eq_refl Hin) as (HD & HE & HM).
    rewrite !elem_of_app. split_and!; [by right|by right|].
    intros HR. destruct (HM HR). split; by right.
Qed.

Lemma calls_app (k : kind) (t : rtype) (evs1 evs2 : list event) :
  calls k t (evs1 ++ evs2) = (calls k t evs1 + calls k t evs2)%nat.
Proof. unfold calls. by rewrite List.filter_app, length_app. Qed.

Lemma calls_cons (k : kind) (t : rtype) (e : event) (evs : list event) :
  calls k t (e :: evs) = ((if is_call k t e then 1 else 0) + calls k t evs)%nat.
Proof. unfold calls. simpl. by destruct (is_call k t e). Qed.

Lemma calls_none (k : kind) (t : rtype) (evs : list event) :
  (∀ r, EvCall k t r ∉ evs) → calls k t evs = 0%nat.
Proof.
  induction evs as [|e evs IH]; [done|]. intros Hno.
  rewrite calls_cons, IH.
  - destruct e as [| | |k' t' r]; try done. simpl.
    repeat case_bool_decide; subst; try done.
    exfalso. apply (Hno r). by left.
  - intros r Hin. apply (Hno r). by right.
Qed.

Lemma calls_quiet (k : kind) (t : rtype) (q : list event) :
  quiet q → calls k t q = 0%nat.
Proof. intros Hq. apply calls_none. intros r. by apply quiet_no_call. Qed.

Lemma body_events_visited (r : bool) (t : rtype) (evs : list event) (err : option error) :
  body_events r t evs err → visited evs = [t].
Proof.
  assert (∀ q, quiet q → visited q = []) as Hq.
  { intros q Hquiet. destruct (visited q) as [|x l] eqn:Hv; [done|].
    exfalso. apply (quiet_no_visit q x Hquiet), elem_of_visited. rewrite Hv. by left. }
  intros Hb. destruct Hb; simpl; f_equal;
    repeat (rewrite visited_app; simpl); rewrite ?Hq by done; done.
Qed.

(** One pass through the body calls the decoder once; a pass that completes
    calls the encoder once and, when marshallers were requested, the
    marshaller and the unmarshaller once each. *)
Lemma body_events_calls (r : bool) (t : rtype) (evs : list event) (err : option error) :
  body_events r t evs err →
  calls Decoder t evs = 1%nat
  ∧ (err = None →
     calls Encoder t evs = 1%nat
     ∧ calls Marshaller t evs = (if r then 1 else 0)%nat
     ∧ calls Unmarshaller t evs = (if r then 1 else 0)%nat).
Proof.
  intros Hb. split; [|intros Herr; split_and!]; destruct Hb; simplify_eq;
    repeat (rewrite ?calls_cons, ?calls_app); rewrite ?calls_quiet by done;
    simpl; rewrite ?bool_decide_eq_true_2 by done; done.
Qed.

Lemma body_events_calls_other (r : bool) (t x : rtype) (k : kind) (evs : list event)
    (err : option error) :
  body_events r t evs err → x ≠ t → calls k x evs = 0%nat.
Proof.
  intros Hb Hne. apply calls_none. intros res Hin.
  by destruct (body_events_call _ _ _ _ _ _ _ Hb Hin).
Qed.

(** In a loop that visits no type twice, the decoder is called once for
    every visited type; when the loop runs to its end, so is the encoder,
    and the marshaller and the unmarshaller are called once for the visited
    types with requested marshallers and not at all for the others. *)
Lemma loop_events_calls (R : rtype → bool) (evs : list event) (err : option error)
    (x : rtype) :
  loop_events R evs err → NoDup (visited evs) → EvVisit x ∈ evs →
  calls Decoder x evs = 1%nat
  ∧ (err = None →
     calls Encoder x evs = 1%nat
     ∧ calls Marshaller x evs = (if R x then 1 else 0)%nat
     ∧ calls Unmarshaller x evs = (if R x then 1 else 0)%nat).
Proof.
  induction 1 as [|t evs e Hb|t evs rest err Hb Hrest IH]; intros Hnd Hin.
  - by apply elem_of_nil in Hin.
  - apply (body_events_visit _ _ _ _ _ Hb) in Hin as ->.
    split; [by apply (body_events_calls _ _ _ _ Hb)|done].
  - rewrite visited_app, (body_events_visited _ _ _ _ Hb) in Hnd.
    apply NoDup_cons in Hnd as [Hfresh Hnd]. rewrite elem_of_visited in Hfresh.
    rewrite !calls_app. apply elem_of_app in Hin as [Hin|Hin].
    + apply (body_events_visit _ _ _ _ _ Hb) in Hin as ->.
      assert (∀ k, calls k t rest = 0%nat) as Hrest0.
      { intros k. apply calls_none. intros res Hcall.
        by destruct (loop_events_call _ _ _ _ _ _ Hrest Hcall). }
      rewrite !Hrest0, !Nat.add_0_r.
      destruct (body_events_calls _ _ _ _ Hb) as [HD Hdone].
      split; [done|]. intros _. by apply Hdone.
    + assert (x ≠ t) as Hne by (by intros ->).
      rewrite !(body_events_calls_other _ _ _ _ _ _ Hb Hne).
      by apply IH.
Qed.

Lemma filter_length_lt {A : Type} (P Q : A → Prop) `{∀ x, Decision (P x)}
    `{∀ x, Decision (Q x)} (l : list A) (a : A) :
  (∀ x, Q x → P x) → a ∈ l → P a → ¬ Q a →
  (length (filter Q l) < length (filter P l))%nat.
Proof.
  intros HQP Ha HPa HQa.
  assert (∀ l', length (filter Q l') ≤ length (filter P l'))%nat as Hle.
  { induction l' as [|x l' IH]; [done|].
    rewrite !filter_cons. destruct (decide (Q x)) as [HQ|HQ].
    - rewrite decide_True by auto. simpl. lia.
    - destruct (decide (P x)); simpl; lia. }
  induction l as [|x l IH]; [by apply elem_of_nil in Ha|].
  rewrite !filter_cons. apply elem_of_cons in Ha as [->|Ha].
  - rewrite (decide_True _ _ HPa), (decide_False _ _ HQa). simpl.
    pose proof (Hle l). lia.
  - specialize (IH Ha). destruct (decide (Q x)) as [HQ|HQ].
    + rewrite decide_True by auto. simpl. lia.
    + destruct (decide (P x)); simpl; lia.
Qed.

Section run_properties.

Variable quote : string → string.

Variable order : nat → shuffle.

Variables genStructDecoder genStructEncoder genStructMarshaller
  genStructUnmarshaller : rtype → Generator → prog.

Local Abbreviation exec_ := (exec order).

Local Abbreviation call_ :=
  (call order genStructDecoder genStructEncoder genStructMarshaller genStructUnmarshaller).

Local Abbreviation collaborator_ :=
  (collaborator genStructDecoder genStructEncoder genStructMarshaller
     genStructUnmarshaller).

Local Abbreviation Run_body_ :=
  (Run_body order genStructDecoder genStructEncoder genStructMarshaller
     genStructUnmarshaller).

Local Abbreviation Run_loop_ :=
  (Run_loop order genStructDecoder genStructEncoder genStructMarshaller
     genStructUnmarshaller).

Local Abbreviation Run_ :=
  (Run quote order genStructDecoder genStructEncoder genStructMarshaller
     genStructUnmarshaller).

Lemma exec_total (p : prog) (m : Machine) : is_Some (exec_ p m).
Proof.
  revert m. induction p as [err|s k IH|t k IH|prefix t k IH|t k IH|k IH]; intros m; simpl.
  - by eexists.
  - apply IH.
  - apply IH.
  - destruct (functionName_total (order (clock m)) prefix t (gen m)) as [[name g] ->].
    apply IH.
  - destruct (getType_total t (gen m)) as [[name g] ->]. apply IH.
  - destruct (uniqueVarName (gen m)) as [name g]. apply IH.
Qed.

Lemma exec_advances (p : prog) (m : Machine) (err : option error) (m' : Machine) :
  exec_ p m = Some (err, m') →
  ∃ evs, quiet evs ∧ advances evs m m'
         ∧ ∀ U, requests_within U p → ∀ t, EvRequest t ∈ evs → t ∈ U.
Proof.
  revert m. induction p as [e|s k IH|t k IH|prefix t k IH|t k IH|k IH]; intros m; simpl.
  - intros [= <- <-]. exists []. split_and!; [by apply Forall_nil|apply advances_refl|].
    by intros U _ t ?%elem_of_nil.
  - intros (evs & Hq & Hadv & HU)%IH. exists (EvEmit s :: evs). split_and!.
    + by apply Forall_cons.
    + apply (advances_trans [EvEmit s] evs _ _ _ (advances_emit s m) Hadv).
    + intros U HUk x [[=]|Hx]%elem_of_cons. inversion HUk; subst. by eapply HU.
  - intros (evs & Hq & Hadv & HU)%IH. exists (EvRequest t :: evs). split_and!.
    + by apply Forall_cons.
    + apply (advances_trans [EvRequest t] evs _ _ _ (advances_request t m) Hadv).
    + intros U HUk x Hx. inversion HUk; subst.
      apply elem_of_cons in Hx as [[= ->]|Hx]; [done|by eapply HU].
  - destruct (functionName _ _ _ _) as [[name g]|] eqn:Hcall; [simpl|done].
    intros (evs & Hq & Hadv & HU)%IH. exists evs. split_and!; [done| |].
    + apply functionName_post in Hcall as (_ & _ & _ & Hframe).
      apply (advances_trans [] evs m (tick (with_gen g m)) m'); [|done].
      apply advances_silent; simpl;
        [by rewrite app_nil_r|done|by rewrite Hframe|done|done|by rewrite Hframe..].
    + intros U HUk. inversion HUk; subst. by eapply HU.
  - destruct (getType _ _) as [[name g]|] eqn:Hcall; [simpl|done].
    intros (evs & Hq & Hadv & HU)%IH. exists evs. split_and!; [done| |].
    + apply getType_frame in Hcall.
      apply (advances_trans [] evs m (with_gen g m) m'); [|done].
      apply advances_silent; simpl;
        [by rewrite app_nil_r|done|by rewrite Hcall|done|done|by rewrite Hcall..].
    + intros U HUk. inversion HUk; subst. by eapply HU.
  - intros (evs & Hq & Hadv & HU)%IH. exists evs. split_and!; [done| |].
    + eapply (advances_trans [] evs m); [|exact Hadv].
      apply advances_silent; simpl; try done. by rewrite app_nil_r.
    + intros U HUk. inversion HUk; subst. by eapply HU.
Qed.

Lemma call_total (k : kind) (t : rtype) (m : Machine) : is_Some (call_ k t m).
Proof.
  unfold call. destruct (exec_total (collaborator_ k t (gen m)) m) as [[err m'] ->].
  by eexists.
Qed.

Lemma call_advances (k : kind) (t : rtype) (m : Machine) (err : option error) (m' : Machine) :
  call_ k t m = Some (err, m') →
  ∃ q, quiet q ∧ advances (q ++ [EvCall k t err]) m m'
       ∧ ∀ U, requests_within U (collaborator_ k t (gen m)) →
              ∀ x, EvRequest x ∈ q → x ∈ U.
Proof.
  unfold call. destruct (exec_ _ m) as [[err1 m1]|] eqn:Hexec; [simpl|done].
  intros [= <- <-]. apply exec_advances in Hexec as (q & Hq & Hadv & HU).
  exists q. split_and!; [done| |done].
  eapply advances_trans; [done|].
  apply advances_silent; simpl; try done.
  by apply Forall_singleton.
Qed.

Lemma visit_advances (t : rtype) (m : Machine) :
  last (typesUnseen (gen m)) = Some t → advances [EvVisit t] m (visit t m).
Proof.
  intros [l Hl]%last_Some.
  assert (∀ x, flag (<[t := true]> (typesSeen (gen m))) x = true
               ↔ flag (typesSeen (gen m)) x = true ∨ x = t) as Hflag.
  { intros x. unfold flag. destruct (decide (t = x)) as [->|Hne].
    - rewrite lookup_insert_eq. naive_solver.
    - rewrite lookup_insert_ne by done. naive_solver. }
  split; simpl; rewrite ?Hl, ?removelast_last; try done.
  - by rewrite append_nil_r.
  - intros x. rewrite Hflag, list_elem_of_singleton. naive_solver.
  - intros [Hnd Hunseen]. rewrite Hl in Hnd, Hunseen.
    apply NoDup_app in Hnd as (Hndl & Hdisj & _).
    split_and!.
    + split; simpl; rewrite ?Hl, ?removelast_last; [done|].
      intros x Hx. apply not_true_iff_false. intros [Hseen| ->]%Hflag.
      * rewrite Hunseen in Hseen; [done|]. apply elem_of_app. by left.
      * apply (Hdisj t Hx). by apply list_elem_of_singleton.
    + apply NoDup_singleton.
    + intros x [= ->]%list_elem_of_singleton. apply Hunseen.
      apply elem_of_app. right. by apply list_elem_of_singleton.
  - intros x [[Hx| ->%list_elem_of_singleton]%elem_of_app|[=]%list_elem_of_singleton].
    + by right.
    + left. apply Hflag. by right.
  - intros x [Hx|[= ->]%list_elem_of_singleton]; left; apply elem_of_app.
    + by left.
    + right. by apply list_elem_of_singleton.
Qed.

Lemma Run_body_total (t : rtype) (m : Machine) : is_Some (Run_body_ t m).
Proof.
  unfold Run_body.
  destruct (call_total Decoder t (visit t m)) as [[e1 m1] ->]. simpl.
  destruct e1; [by eexists|].
  destruct (call_total Encoder t m1) as [[e2 m2] ->]. simpl.
  destruct e2; [by eexists|].
  destruct (negb _); [by eexists|].
  destruct (call_total Marshaller t m2) as [[e3 m3] ->]. simpl.
  destruct e3; [by eexists|].
  destruct (call_total Unmarshaller t m3) as [[e4 m4] ->]. by eexists.
Qed.

Lemma Run_body_advances (t : rtype) (m : Machine) (err : option error) (m' : Machine) :
  last (typesUnseen (gen m)) = Some t →
  Run_body_ t m = Some (err, m') →
  ∃ evs, advances evs m m'
         ∧ body_events (flag (marshallers (gen m)) t) t evs err
         ∧ ∀ U, (∀ k x g, requests_within U (collaborator_ k x g)) →
                ∀ x, EvRequest x ∈ evs → x ∈ U.
Proof.
  intros Hlast. pose proof (visit_advances t m Hlast) as Hv.
  unfold Run_body.
  destruct (call_ Decoder t (visit t m)) as [[e1 m1]|] eqn:H1; [simpl|done].
  apply call_advances in H1 as (q1 & Hq1 & Ha1 & HU1).
  pose proof (advances_trans _ _ _ _ _ Hv Ha1) as Hadv1.
  assert (∀ (q : list event) (x : rtype) (k : kind) r,
            EvRequest x ∈ q ++ [EvCall k t r] → EvRequest x ∈ q) as Hreq.
  { intros q x k r [?|[=]%list_elem_of_singleton]%elem_of_app. done. }
  destruct e1 as [e1|].
  { intros [= <- <-]. eexists. split_and!; [exact Hadv1|by constructor|].
    intros U HU x [[=]|Hx%Hreq]%elem_of_cons. eapply HU1; [apply HU|done]. }
  destruct (call_ Encoder t m1) as [[e2 m2]|] eqn:H2; [simpl|done].
  apply call_advances in H2 as (q2 & Hq2 & Ha2 & HU2).
  pose proof (advances_trans _ _ _ _ _ Hadv1 Ha2) as Hadv2.
  assert (∀ U, (∀ k x g, requests_within U (collaborator_ k x g)) →
            ∀ x, EvRequest x ∈ ([EvVisit t] ++ q1 ++ [EvCall Decoder t None])
                               ++ q2 ++ [EvCall Encoder t e2] → x ∈ U) as HUU2.
  { intros U HU x [[[=]|Hx%Hreq]%elem_of_cons|Hx%Hreq]%elem_of_app.
    - eapply HU1; [apply HU|done].
    - eapply HU2; [apply HU|done]. }
  simpl in Hadv2, HUU2. rewrite <-app_assoc in Hadv2, HUU2. simpl in Hadv2, HUU2.
  destruct e2 as [e2|].
  { intros [= <- <-]. eexists. split_and!; [exact Hadv2|by constructor|done]. }
  rewrite (adv_marshallers _ _ _ Hadv2).
  destruct (flag (marshallers (gen m)) t) eqn:Hflag; simpl.
  2:{ intros [= <- <-]. eexists. split_and!; [exact Hadv2|by constructor|done]. }
  destruct (call_ Marshaller t m2) as [[e3 m3]|] eqn:H3; [simpl|done].
  apply call_advances in H3 as (q3 & Hq3 & Ha3 & HU3).
  pose proof (advances_trans _ _ _ _ _ Hadv2 Ha3) as Hadv3.
  assert (∀ U, (∀ k x g, requests_within U (collaborator_ k x g)) →
            ∀ x, EvRequest x ∈ (EvVisit t :: q1 ++ EvCall Decoder t None
                                  :: q2 ++ [EvCall Encoder t None])
                               ++ q3 ++ [EvCall Marshaller t e3] → x ∈ U) as HUU3.
  { intros U HU x [Hx|Hx%Hreq]%elem_of_app.
    - by eapply HUU2.
    - eapply HU3; [apply HU|done]. }
  simpl in Hadv3, HUU3. rewrite <-!app_assoc in Hadv3, HUU3. simpl in Hadv3, HUU3.
  rewrite <-!app_assoc in Hadv3, HUU3. simpl in Hadv3, HUU3.
  destruct e3 as [e3|].
  { intros [= <- <-]. eexists. split_and!; [exact Hadv3|by constructor|done]. }
  destruct (call_ Unmarshaller t m3) as [[e4 m4]|] eqn:H4; [simpl|done].
  apply call_advances in H4 as (q4 & Hq4 & Ha4 & HU4).
  pose proof (advances_trans _ _ _ _ _ Hadv3 Ha4) as Hadv4.
  intros [= <- <-]. eexists. split_and!; [exact Hadv4| |].
  - simpl. rewrite <-!app_assoc. simpl. rewrite <-!app_assoc. simpl.
    rewrite <-!app_assoc. simpl. by constructor.
  - intros U HU x [Hx|Hx%Hreq]%elem_of_app.
    + by eapply HUU3.
    + eapply HU4; [apply HU|done].
Qed.

Lemma Run_loop_advances (fuel : nat) (m : Machine) (err : option error) (m' : Machine) :
  Run_loop_ fuel m = Some (err, m') →
  ∃ evs, advances evs m m'
         ∧ loop_events (flag (marshallers (gen m))) evs err
         ∧ (err = None → typesUnseen (gen m') = [])
         ∧ ∀ U, (∀ k x g, requests_within U (collaborator_ k x g)) →
                ∀ x, EvRequest x ∈ evs → x ∈ U.
Proof.
  revert m. induction fuel as [|fuel IH]; intros m.
  - simpl. destruct (last (typesUnseen (gen m))) as [t|] eqn:Hlast; [done|].
    intros [= <- <-]. exists []. split_and!; [apply advances_refl|constructor| |].
    + intros _. by apply last_None.
    + by intros U _ x ?%elem_of_nil.
  - simpl. destruct (last (typesUnseen (gen m))) as [t|] eqn:Hlast.
    + destruct (Run_body_ t m) as [[e1 m1]|] eqn:Hbody; [simpl|done].
      apply Run_body_advances in Hbody as (evs1 & Hadv1 & Hb1 & HU1); [|done].
      destruct e1 as [e1|].
      * intros [= <- <-]. exists evs1. split_and!; [done|by eapply loop_abort|done|done].
      * intros (evs2 & Hadv2 & Hl2 & Hend & HU2)%IH.
        exists (evs1 ++ evs2). split_and!; [by eapply advances_trans| |done|].
        -- rewrite (adv_marshallers _ _ _ Hadv1) in Hl2. by eapply loop_next.
        -- intros U HU x [Hx|Hx]%elem_of_app; [by eapply HU1|by eapply HU2].
    + intros [= <- <-]. exists []. split_and!; [apply advances_refl|constructor| |].
      * intros _. by apply last_None.
      * by intros U _ x ?%elem_of_nil.
Qed.

(** The loop ends when the types that can ever be requested are finitely
    many: every pass marks a type of [U] seen that was not. *)
Lemma Run_loop_total (U : list rtype) (fuel : nat) (m : Machine) :
  (∀ k x g, requests_within U (collaborator_ k x g)) →
  pending_ok (gen m) →
  (∀ t, t ∈ typesUnseen (gen m) → t ∈ U) →
  (length (filter (λ t, flag (typesSeen (gen m)) t = false) U) ≤ fuel)%nat →
  is_Some (Run_loop_ fuel m).
Proof.
  intros HU. revert m. induction fuel as [|fuel IH]; intros m Hok Hin Hlen.
  - simpl. destruct (last (typesUnseen (gen m))) as [t|] eqn:Hlast; [|by eexists].
    exfalso. apply last_Some_elem_of in Hlast.
    assert (t ∈ filter (λ t, flag (typesSeen (gen m)) t = false) U) as Ht.
    { apply list_elem_of_filter. split; [by apply Hok|by apply Hin]. }
    destruct (filter _ U); [by apply elem_of_nil in Ht|simpl in Hlen; lia].
  - simpl. destruct (last (typesUnseen (gen m))) as [t|] eqn:Hlast; [|by eexists].
    destruct (Run_body_total t m) as [[e1 m1] Hbody]. rewrite Hbody. simpl.
    destruct e1 as [e1|]; [by eexists|].
    apply Run_body_advances in Hbody as (evs & Hadv & Hb & HUevs); [|done].
    destruct (adv_pending _ _ _ Hadv Hok) as (Hok1 & _ & _).
    apply IH; [done| |].
    + intros x Hx. destruct (adv_origin _ _ _ Hadv x) as [?|?]; [by left|by apply Hin|].
      by eapply HUevs.
    + apply last_Some_elem_of in Hlast.
      assert (length (filter (λ x, flag (typesSeen (gen m1)) x = false) U)
              < length (filter (λ x, flag (typesSeen (gen m)) x = false) U))%nat; [|lia].
      apply (filter_length_lt _ _ U t).
      * intros x Hx. apply not_true_iff_false. intros Hseen.
        apply not_true_iff_false in Hx. apply Hx, (adv_seen _ _ _ Hadv). by left.
      * by apply Hin.
      * by apply Hok.
      * intros Hx. apply not_true_iff_false in Hx. apply Hx, (adv_seen _ _ _ Hadv).
        right. by apply (body_events_visit _ _ _ _ _ Hb).
Qed.

Lemma Run_inv (fuel : nat) (w : Writer) (m : Machine) (err : option error) (m' : Machine) :
  Run_ fuel w m = Some (err, m') →
  ∃ evs errl ml,
    advances evs (reset_out m) ml
    ∧ loop_events (flag (marshallers (gen m))) evs errl
    ∧ (∀ U, (∀ k x g, requests_within U (collaborator_ k x g)) →
            ∀ x, EvRequest x ∈ evs → x ∈ U)
    ∧ match errl with
      | Some e => err = Some e ∧ m' = ml
      | None => typesUnseen (gen ml) = [] ∧ (err, m') = finish quote order w ml
      end.
Proof.
  unfold Run. fold (reset_out m).
  destruct (Run_loop_ fuel (reset_out m)) as [[errl ml]|] eqn:Hloop; [simpl|done].
  apply Run_loop_advances in Hloop as (evs & Hadv & Hl & Hend & HU).
  intros Hrun. exists evs, errl, ml. split_and!; [done..|].
  destruct errl as [e|]; simpl in Hrun.
  - by injection Hrun as <- <-.
  - split; [by apply Hend|]. unfold finish. injection Hrun as Hrun. by rewrite Hrun.
Qed.

Lemma finish_gen (w : Writer) (ml : Machine) :
  gen (finish quote order w ml).2 = gen ml ∧ trace (finish quote order w ml).2 = trace ml.
Proof. unfold finish. by destruct w as [|[e|]]. Qed.

Lemma Run_total (U : list rtype) (fuel : nat) (w : Writer) (m : Machine) :
  (∀ k x g, requests_within U (collaborator_ k x g)) →
  pending_ok (gen m) →
  (∀ t, t ∈ typesUnseen (gen m) → t ∈ U) →
  (length U ≤ fuel)%nat →
  is_Some (Run_ fuel w m).
Proof.
  intros HU Hok Hin Hlen. unfold Run. fold (reset_out m).
  assert (is_Some (Run_loop_ fuel (reset_out m))) as [[errl ml] ->].
  { apply (Run_loop_total U); try done. etrans; [apply length_filter|done]. }
  simpl. destruct errl; by eexists.
Qed.

(** C9: when the collaborators request types of a finite list only, [Run]
    returns, and whenever a collaborator call of the run returned an error,
    [Run] returns the very error of that call; the call is the last event of
    the run (no further type is taken off the worklist and no further
    collaborator is invoked), no call before it returned an error, and
    nothing was printed or written. *)
Theorem Run_fail_fast (U : list rtype) (fuel : nat) (w : Writer) (m : Machine) :
  (∀ k x g, requests_within U (collaborator_ k x g)) →
  pending_ok (gen m) →
  (∀ t, t ∈ typesUnseen (gen m) → t ∈ U) →
  (length U ≤ fuel)%nat →
  ∃ err m' evs,
    Run_ fuel w m = Some (err, m')
    ∧ trace m' = trace m ++ evs
    ∧ ∀ k t e, EvCall k t (Some e) ∈ evs →
        err = Some e
        ∧ (∃ pre, evs = pre ++ [EvCall k t (Some e)] ∧ clean pre)
        ∧ stdout m' = stdout m ∧ written m' = written m.
Proof.
  intros HU Hok Hin Hlen.
  destruct (Run_total U fuel w m HU Hok Hin Hlen) as [[err m'] Hrun].
  exists err, m'.
  pose proof Hrun as (evs & errl & ml & Hadv & Hl & _ & Hres)%Run_inv.
  exists evs. split; [done|].
  destruct (loop_events_shape _ _ _ Hl)
    as [[-> Hclean]|(pre & k0 & t0 & e0 & -> & -> & Hclean)].
  - destruct Hres as [_ Hfin].
    assert (m' = (finish quote order w ml).2) as -> by (by rewrite <-Hfin).
    destruct (finish_gen w ml) as [_ ->]. split; [apply (adv_trace _ _ _ Hadv)|].
    intros k t e Hfail. by apply Hclean in Hfail.
  - destruct Hres as [-> ->]. split; [apply (adv_trace _ _ _ Hadv)|].
    intros k t e [Hfail|Hfail]%elem_of_app; [by apply Hclean in Hfail|].
    apply list_elem_of_singleton in Hfail. injection Hfail as -> -> ->.
    split_and!; [done|by exists pre| |].
    + apply (adv_stdout _ _ _ Hadv).
    + apply (adv_written _ _ _ Hadv).
Qed.

(** C1, as the code has it: [Run] gathers in the output buffer what the
    collaborators emit, in the order of emission.  When no collaborator
    fails, it prints the header on the standard output of the process (the
    header is not put in the buffer) and then passes the buffer alone to the
    writer: the header precedes the body on the standard output when the
    writer is the standard output, and another writer receives the body
    without the header.  [Run] returns what the writer returns. *)
Theorem Run_output (fuel : nat) (w : Writer) (m : Machine)
    (err : option error) (m' : Machine) :
  Run_ fuel w m = Some (err, m') →
  ∃ evs, trace m' = trace m ++ evs
    ∧ out (gen m') = emitted evs
    ∧ (clean evs →
       ∃ sh1 sh2,
         let header := printHeader quote sh1 sh2 (gen m') in
         let body := out (gen m') in
         match w with
         | os_Stdout =>
             err = None ∧ stdout m' = stdout m +:+ header +:+ body
             ∧ written m' = written m
         | other_Writer None =>
             err = None ∧ stdout m' = stdout m +:+ header
             ∧ written m' = written m +:+ body
         | other_Writer (Some e) =>
             err = Some e ∧ stdout m' = stdout m +:+ header
             ∧ written m' = written m
         end).
Proof.
  intros (evs & errl & ml & Hadv & Hl & _ & Hres)%Run_inv.
  exists evs.
  pose proof (adv_trace _ _ _ Hadv) as Htrace. pose proof (adv_out _ _ _ Hadv) as Hout.
  pose proof (adv_stdout _ _ _ Hadv) as Hstdout.
  pose proof (adv_written _ _ _ Hadv) as Hwritten. simpl in *.
  destruct (loop_events_shape _ _ _ Hl)
    as [[-> Hclean]|(pre & k & t & e & -> & -> & Hclean)].
  - destruct Hres as [_ Hfin].
    assert (err = (finish quote order w ml).1 ∧ m' = (finish quote order w ml).2) as [-> ->]
      by (by rewrite <-Hfin).
    destruct (finish_gen w ml) as [-> ->]. split_and!; [done|done|].
    intros _. exists (order (clock ml)), (order (S (clock ml))).
    unfold finish. destruct w as [|[e|]]; simpl; rewrite ?Hstdout, ?Hwritten;
      split_and!; try done.
    by rewrite append_assoc.
  - destruct Hres as [-> ->]. split_and!; [done|done|].
    intros Hc. exfalso. apply (Hc k t e), elem_of_app. right. by apply list_elem_of_singleton.
Qed.

(** C3: registering a type that is seen or pending changes nothing, and
    registration keeps the pending types pairwise different and unseen.  When
    the collaborators request types of a finite list only, [Run] returns; it
    keeps the pending types pairwise different and unseen; no type is visited
    twice; a visited type was not seen before, was pending or requested, is
    seen after, and its decoder was called once; a collaborator is called for
    visited types only; and when no collaborator fails the loop ends with no
    pending type, every type that was pending or requested during the run is
    seen, it was visited in this run unless it was seen before, and every
    visited type has its decoder and its encoder emitted, once each. *)
Theorem Run_visits_once (U : list rtype) (fuel : nat) (w : Writer) (m : Machine) :
  (∀ k x g, requests_within U (collaborator_ k x g)) →
  pending_ok (gen m) →
  (∀ t, t ∈ typesUnseen (gen m) → t ∈ U) →
  (length U ≤ fuel)%nat →
  (∀ t g, (flag (typesSeen g) t = true ∨ t ∈ typesUnseen g → addType t g = g)
          ∧ (pending_ok g → pending_ok (addType t g) ∧ pending_ok (Add t g)))
  ∧ ∃ err m' evs,
      Run_ fuel w m = Some (err, m')
      ∧ trace m' = trace m ++ evs
      ∧ pending_ok (gen m')
      ∧ NoDup (visited evs)
      ∧ (∀ t, t ∈ visited evs →
           flag (typesSeen (gen m)) t = false
           ∧ (t ∈ typesUnseen (gen m) ∨ EvRequest t ∈ evs)
           ∧ flag (typesSeen (gen m')) t = true
           ∧ calls Decoder t evs = 1%nat)
      ∧ (∀ k t r, EvCall k t r ∈ evs → t ∈ visited evs)
      ∧ (clean evs →
           typesUnseen (gen m') = []
           ∧ (∀ t, t ∈ typesUnseen (gen m) ∨ EvRequest t ∈ evs →
                   flag (typesSeen (gen m')) t = true
                   ∧ (flag (typesSeen (gen m)) t = false → t ∈ visited evs))
           ∧ (∀ t, t ∈ visited evs →
                EvCall Decoder t None ∈ evs ∧ EvCall Encoder t None ∈ evs
                ∧ calls Decoder t evs = 1%nat ∧ calls Encoder t evs = 1%nat)).
Proof.
  intros HU Hok Hin Hlen. split.
  { intros t g. split; [apply addType_known|].
    intros Hg. split; [by apply addType_pending_ok|by apply Add_pending_ok]. }
  destruct (Run_total U fuel w m HU Hok Hin Hlen) as [[err m'] Hrun].
  exists err, m'.
  pose proof Hrun as (evs & errl & ml & Hadv & Hl & _ & Hres)%Run_inv.
  exists evs.
  destruct (adv_pending _ _ _ Hadv Hok) as (Hokl & Hnd & Hnew).
  pose proof (adv_trace _ _ _ Hadv) as Htrace.
  pose proof (adv_seen _ _ _ Hadv) as Hseen.
  pose proof (adv_registered _ _ _ Hadv) as Hreg.
  pose proof (adv_origin _ _ _ Hadv) as Horig. simpl in *.
  assert (gen m' = gen ml ∧ trace m' = trace ml) as [Hgen Htr].
  { destruct errl as [e|]; [by destruct Hres as [_ ->]|].
    destruct Hres as [_ Hfin].
    assert (m' = (finish quote order w ml).2) as -> by (by rewrite <-Hfin). apply finish_gen. }
  rewrite Hgen, Htr. split_and!; [done..| | |].
  - intros t Ht%elem_of_visited.
    split_and!; [by apply Hnew|by apply Horig; right|apply Hseen; by right|].
    by apply (loop_events_calls _ _ _ _ Hl Hnd Ht).
  - intros k t r Hcall. apply elem_of_visited.
    by destruct (loop_events_call _ _ _ _ _ _ Hl Hcall).
  - intros Hclean.
    destruct (loop_events_shape _ _ _ Hl)
      as [[-> _]|(pre & k & x & e & -> & -> & _)].
    + destruct Hres as [Hempty _]. split_and!; [done| |].
      * intros t Ht.
        destruct (Hreg t Ht) as [Hs|Hp];
          [|by rewrite Hempty in Hp; apply elem_of_nil in Hp].
        split; [done|]. intros Hunseen. apply elem_of_visited.
        apply Hseen in Hs as [Hs|Hs]; [congruence|done].
      * intros t Ht%elem_of_visited.
        destruct (loop_events_complete _ _ _ Hl Ht) as (HD & HE & _).
        destruct (loop_events_calls _ _ _ _ Hl Hnd Ht) as [HD1 Hdone].
        destruct (Hdone eq_refl) as (HE1 & _). done.
    + exfalso. apply (Hclean k x e), elem_of_app. right. by apply list_elem_of_singleton.
Qed.

(** C6, as the code has it: when the collaborators request types of a
    finite list only, [Run] returns; a marshaller or unmarshaller is invoked
    only for a type for which marshallers were requested.  In a run in which
    no collaborator fails, the visited types are the types that were not
    seen before and were pending at the start or requested during the run;
    every visited type has its decoder and its encoder emitted; and the
    marshaller, and likewise the unmarshaller, is emitted exactly for the
    visited types for which marshallers were requested.  So a type that was
    only requested by a collaborator gets its decoder and encoder and no
    marshaller or unmarshaller; and when the types with requested marshallers
    are pending at the start (as after calls of [Add] on types not yet
    seen), the marshaller and the unmarshaller are emitted exactly for
    them. *)
Theorem Run_marshallers (U : list rtype) (fuel : nat) (w : Writer) (m : Machine) :
  (∀ k x g, requests_within U (collaborator_ k x g)) →
  pending_ok (gen m) →
  (∀ t, t ∈ typesUnseen (gen m) → t ∈ U) →
  (length U ≤ fuel)%nat →
  ∃ err m' evs,
    Run_ fuel w m = Some (err, m')
    ∧ trace m' = trace m ++ evs
    ∧ (∀ k t r, EvCall k t r ∈ evs → k = Marshaller ∨ k = Unmarshaller →
         flag (marshallers (gen m)) t = true)
    ∧ (clean evs →
         (∀ t, EvVisit t ∈ evs
               ↔ flag (typesSeen (gen m)) t = false
                 ∧ (t ∈ typesUnseen (gen m) ∨ EvRequest t ∈ evs))
         ∧ (∀ t, EvVisit t ∈ evs →
              EvCall Decoder t None ∈ evs ∧ EvCall Encoder t None ∈ evs)
         ∧ (∀ t, EvCall Marshaller t None ∈ evs
                 ↔ flag (marshallers (gen m)) t = true ∧ EvVisit t ∈ evs)
         ∧ (∀ t, EvCall Unmarshaller t None ∈ evs
                 ↔ flag (marshallers (gen m)) t = true ∧ EvVisit t ∈ evs)
         ∧ ((∀ t, flag (marshallers (gen m)) t = true → t ∈ typesUnseen (gen m)) →
            ∀ t, flag (marshallers (gen m)) t = true
                 ↔ EvCall Marshaller t None ∈ evs ∧ EvCall Unmarshaller t None ∈ evs)).
Proof.
  intros HU Hok Hin Hlen.
  destruct (Run_total U fuel w m HU Hok Hin Hlen) as [[err m'] Hrun].
  exists err, m'.
  pose proof Hrun as (evs & errl & ml & Hadv & Hl & _ & Hres)%Run_inv.
  exists evs. split; [done|].
  destruct (adv_pending _ _ _ Hadv Hok) as (_ & _ & Hnew).
  pose proof (adv_trace _ _ _ Hadv) as Htrace.
  pose proof (adv_seen _ _ _ Hadv) as Hseen.
  pose proof (adv_registered _ _ _ Hadv) as Hreg.
  pose proof (adv_origin _ _ _ Hadv) as Horig. simpl in *.
  assert (trace m' = trace ml) as ->.
  { destruct errl as [e|]; [by destruct Hres as [_ ->]|].
    destruct Hres as [_ Hfin].
    assert (m' = (finish quote order w ml).2) as -> by (by rewrite <-Hfin). apply finish_gen. }
  split_and!; [done| |].
  - intros k t r Hcall Hk. by destruct (loop_events_call _ _ _ _ _ _ Hl Hcall) as [_ ->].
  - intros Hclean.
    destruct (loop_events_shape _ _ _ Hl)
      as [[-> _]|(pre & k & x & e & -> & -> & _)].
    2:{ exfalso. apply (Hclean k x e), elem_of_app. right.
        by apply list_elem_of_singleton. }
    destruct Hres as [Hempty _].
    assert (∀ t, EvVisit t ∈ evs
                 ↔ flag (typesSeen (gen m)) t = false
                   ∧ (t ∈ typesUnseen (gen m) ∨ EvRequest t ∈ evs)) as Hvisit.
    { intros t. split.
      - intros Ht. split; [by apply Hnew|by apply Horig; right].
      - intros [Hunseen Ht].
        destruct (Hreg t Ht) as [Hs|Hp];
          [|by rewrite Hempty in Hp; apply elem_of_nil in Hp].
        apply Hseen in Hs as [Hs|Hs]; [congruence|done]. }
    assert (∀ t, EvCall Marshaller t None ∈ evs
                 ↔ flag (marshallers (gen m)) t = true ∧ EvVisit t ∈ evs) as HM.
    { intros t. split.
      - intros Hcall. destruct (loop_events_call _ _ _ _ _ _ Hl Hcall) as [Hv HR].
        split; [apply HR; by left|done].
      - intros [Hflag Hv].
        destruct (loop_events_complete _ _ _ Hl Hv) as (_ & _ & Hboth).
        by destruct (Hboth Hflag). }
    assert (∀ t, EvCall Unmarshaller t None ∈ evs
                 ↔ flag (marshallers (gen m)) t = true ∧ EvVisit t ∈ evs) as HUn.
    { intros t. split.
      - intros Hcall. destruct (loop_events_call _ _ _ _ _ _ Hl Hcall) as [Hv HR].
        split; [apply HR; by right|done].
      - intros [Hflag Hv].
        destruct (loop_events_complete _ _ _ Hl Hv) as (_ & _ & Hboth).
        by destruct (Hboth Hflag). }
    split_and!; [done| |done|done|].
    + intros t Ht. by destruct (loop_events_complete _ _ _ Hl Ht) as (? & ? & _).
    + intros Hpending t. rewrite HM, HUn. split; [|naive_solver].
      intros Hflag. pose proof (Hpending t Hflag) as Hp.
      assert (EvVisit t ∈ evs); [|done].
      apply Hvisit. split; [by apply Hok|by left].
Qed.

End run_properties.

Lemma demo_requests_within (k : kind) (t : rtype) (g : Generator) :
  requests_within [type_A; type_B]
    (collaborator demo_decoder demo_encoder demo_marshaller demo_unmarshaller k t g).
Proof.
  destruct k; simpl; unfold demo_decoder, demo_encoder, demo_marshaller, demo_unmarshaller.
  - constructor. intros name. constructor. case_bool_decide; repeat constructor.
  - repeat constructor.
  - repeat constructor.
  - repeat constructor.
Qed.

Lemma failing_requests_within (k : kind) (t : rtype) (g : Generator) :
  requests_within [type_A; type_B]
    (collaborator demo_decoder failing_encoder demo_marshaller demo_unmarshaller k t g).
Proof.
  destruct k; try apply (demo_requests_within Decoder);
    try apply (demo_requests_within Marshaller);
    try apply (demo_requests_within Unmarshaller).
  simpl. unfold failing_encoder. case_bool_decide; [constructor|].
  apply (demo_requests_within Encoder).
Qed.

Lemma demo_start_pending_ok : pending_ok (gen demo_start).
Proof.
  split; [apply (bool_decide_unpack _); by vm_compute|].
  intros t Ht. by vm_compute.
Qed.

Lemma demo_start_within (t : rtype) :
  t ∈ typesUnseen (gen demo_start) → t ∈ [type_A; type_B].
Proof. intros ->%list_elem_of_singleton. by left. Qed.

Lemma demo_start_marshallers (t : rtype) :
  flag (marshallers (gen demo_start)) t = true → t ∈ typesUnseen (gen demo_start).
Proof.
  simpl. unfold flag. destruct (decide (type_A = t)) as [<-|Hne].
  - intros _. by left.
  - by rewrite lookup_insert_ne, lookup_empty.
Qed.

Lemma demo_Run_returns (w : Writer) : is_Some (demo_Run 2 w).
Proof.
  apply (Run_total _ _ _ _ _ _ [type_A; type_B]);
    [apply demo_requests_within|apply demo_start_pending_ok|apply demo_start_within|done].
Qed.

Lemma failing_Run_returns (w : Writer) : is_Some (failing_Run 2 w).
Proof.
  apply (Run_total _ _ _ _ _ _ [type_A; type_B]);
    [apply failing_requests_within|apply demo_start_pending_ok|apply demo_start_within|done].
Qed.

Ltac in_list := repeat (apply elem_of_cons; first [left; reflexivity | right]).

Lemma demo_Run_trace (w : Writer) :
  (λ r : option error * Machine, trace r.2) <$> demo_Run 2 w = Some demo_events.
Proof. destruct w as [|[e|]]; vm_compute; reflexivity. Qed.

Lemma demo_events_clean : clean demo_events.
Proof.
  intros k t e Hin. unfold demo_events in Hin.
  repeat (apply elem_of_cons in Hin as [Hin|Hin]; [discriminate Hin|]).
  by apply elem_of_nil in Hin.
Qed.

Lemma demo_Run_events (w : Writer) (err : option error) (m' : Machine)
    (evs : list event) :
  demo_Run 2 w = Some (err, m') → trace m' = trace demo_start ++ evs →
  evs = demo_events.
Proof.
  intros Hrun Htrace. pose proof (demo_Run_trace w) as Hdemo.
  rewrite Hrun in Hdemo. injection Hdemo as Hdemo. simpl in *. congruence.
Qed.

Lemma failing_Run_trace (w : Writer) :
  (λ r : option error * Machine, trace r.2) <$> failing_Run 2 w = Some failing_events.
Proof. destruct w as [|[e|]]; vm_compute; reflexivity. Qed.

Lemma failing_Run_events (w : Writer) (err : option error) (m' : Machine)
    (evs : list event) :
  failing_Run 2 w = Some (err, m') → trace m' = trace demo_start ++ evs →
  evs = failing_events.
Proof.
  intros Hrun Htrace. pose proof (failing_Run_trace w) as Hfail.
  rewrite Hrun in Hfail. injection Hfail as Hfail. simpl in *. congruence.
Qed.

Lemma Run_visits_once_witness :
  ∃ err m' evs,
    demo_Run 2 (other_Writer None) = Some (err, m')
    ∧ trace m' = evs
    ∧ visited evs = [type_A; type_B]
    ∧ typesUnseen (gen m') = []
    ∧ (∀ t, t ∈ visited evs →
         flag (typesSeen (gen m')) t = true
         ∧ EvCall Decoder t None ∈ evs ∧ EvCall Encoder t None ∈ evs
         ∧ calls Decoder t evs = 1%nat ∧ calls Encoder t evs = 1%nat).
Proof.
  destruct (Run_visits_once demo_quote demo_order demo_decoder demo_encoder
    demo_marshaller demo_unmarshaller [type_A; type_B] 2 (other_Writer None) demo_start
    demo_requests_within demo_start_pending_ok demo_start_within (le_n 2))
    as (_ & err & m' & evs & Hrun & Htrace & _ & _ & Hvisit & _ & Hend).
  pose proof (demo_Run_events _ _ _ _ Hrun Htrace) as Hevs.
  assert (clean evs) as Hclean by (rewrite Hevs; apply demo_events_clean).
  destruct (Hend Hclean) as (Hempty & _ & Hcodec).
  exists err, m', evs. split_and!; [exact Hrun|exact Htrace|by rewrite Hevs|exact Hempty|].
  intros t Ht. destruct (Hvisit t Ht) as (_ & _ & Hseen & _).
  split; [exact Hseen|exact (Hcodec t Ht)].
Defined.

Lemma Run_marshallers_witness :
  ∃ err m' evs,
    demo_Run 2 (other_Writer None) = Some (err, m')
    ∧ trace m' = evs
    ∧ (EvCall Marshaller type_A None ∈ evs ∧ EvCall Unmarshaller type_A None ∈ evs)
    ∧ (EvCall Decoder type_B None ∈ evs ∧ EvCall Encoder type_B None ∈ evs)
    ∧ (∀ t, EvCall Marshaller t None ∈ evs ∨ EvCall Unmarshaller t None ∈ evs →
            t = type_A).
Proof.
  destruct (Run_marshallers demo_quote demo_order demo_decoder demo_encoder
    demo_marshaller demo_unmarshaller [type_A; type_B] 2 (other_Writer None) demo_start
    demo_requests_within demo_start_pending_ok demo_start_within (le_n 2))
    as (err & m' & evs & Hrun & Htrace & Honly & Hexact).
  pose proof (demo_Run_events _ _ _ _ Hrun Htrace) as Hevs.
  assert (clean evs) as Hclean by (rewrite Hevs; apply demo_events_clean).
  destruct (Hexact Hclean) as (Hvisit & Hcodec & _ & _ & Hall).
  exists err, m', evs.
  split; [exact Hrun|]. split; [exact Htrace|]. split; [|split].
  - apply (Hall demo_start_marshallers). reflexivity.
  - apply Hcodec, Hvisit. split; [reflexivity|]. right. rewrite Hevs.
    unfold demo_events. in_list.
  - intros t Ht.
    assert (flag (marshallers (gen demo_start)) t = true) as Hflag.
    { destruct Ht as [Ht|Ht]; [apply (Honly _ _ _ Ht); by left|].
      apply (Honly _ _ _ Ht). by right. }
    apply demo_start_marshallers, list_elem_of_singleton in Hflag. exact Hflag.
Defined.

(** The claim of C6 as it is written fails: [Add] of a type that was seen
    puts it in the set of requested marshallers and not on the worklist, so
    no run emits a marshaller or an unmarshaller for it. *)
Lemma Add_seen_no_marshaller :
  match late_Add_Run 2 (other_Writer None) with
  | Some (err, m') =>
      err = None
      ∧ flag (marshallers (gen m')) type_B = true
      ∧ flag (typesSeen (gen m')) type_B = true
      ∧ typesUnseen (gen m') = []
      ∧ trace m' = demo_events
      ∧ calls Decoder type_B (trace m') = 1%nat
      ∧ calls Marshaller type_B (trace m') = 0%nat
      ∧ calls Unmarshaller type_B (trace m') = 0%nat
  | None => False
  end.
Proof. vm_compute. repeat split; reflexivity. Qed.

Lemma Run_fail_fast_witness :
  ∃ m' pre,
    failing_Run 2 (other_Writer None) = Some (Some (MkError "unsupported type"), m')
    ∧ trace m' = pre ++ [EvCall Encoder type_B (Some (MkError "unsupported type"))]
    ∧ clean pre
    ∧ stdout m' = "" ∧ written m' = "".
Proof.
  destruct (Run_fail_fast demo_quote demo_order demo_decoder failing_encoder
    demo_marshaller demo_unmarshaller [type_A; type_B] 2 (other_Writer None) demo_start
    failing_requests_within demo_start_pending_ok demo_start_within (le_n 2))
    as (err & m' & evs & Hrun & Htrace & Hfail).
  pose proof (failing_Run_events _ _ _ _ Hrun Htrace) as Hevs.
  destruct (Hfail Encoder type_B (MkError "unsupported type"))
    as (Herr & (pre & Hpre & Hclean) & Hstdout & Hwritten).
  { rewrite Hevs. unfold failing_events. in_list. }
  subst err. exists m', pre. rewrite Htrace. simpl.
  split_and!; [exact Hrun|exact Hpre|exact Hclean|exact Hstdout|exact Hwritten].
Defined.

Lemma Run_output_witness :
  ∃ err m' evs,
    demo_Run 2 os_Stdout = Some (err, m')
    ∧ trace m' = evs
    ∧ out (gen m') = emitted evs
    ∧ (clean evs →
       ∃ sh1 sh2,
         err = None
         ∧ stdout m' = "" +:+ printHeader demo_quote sh1 sh2 (gen m') +:+ out (gen m')
         ∧ written m' = "").
Proof.
  destruct (demo_Run_returns os_Stdout) as [[err m'] Hrun].
  destruct (Run_output demo_quote demo_order demo_decoder demo_encoder
    demo_marshaller demo_unmarshaller 2 os_Stdout demo_start err m' Hrun)
    as (evs & Htrace & Hout & Hclean).
  exists err, m', evs. split_and!; [exact Hrun|exact Htrace|exact Hout|exact Hclean].
Defined.

(** The claim of C1 as it is written fails: a writer other than the standard
    output receives the body alone; the header was printed on the standard
    output and is no part of what [Run] writes. *)
Lemma Run_writes_body_only :
  match demo_Run 2 (other_Writer None) with
  | Some (err, m') =>
      err = None
      ∧ written m' = out (gen m')
      ∧ stdout m' = printHeader demo_quote sh_id sh_rev (gen m')
      ∧ HasPrefix (stdout m') "package  pkg" = true
      ∧ HasPrefix (written m') "func easyjson_decode_example_com_pkg_A()" = true
      ∧ bool_decide
          (written m' = printHeader demo_quote sh_id sh_rev (gen m') +:+ out (gen m'))
        = false
  | None => False
  end.
Proof. vm_compute. repeat split; reflexivity. Qed.

(** ** More on the identifier converter *)

Lemma all_runes_app (P : ascii → bool) (s1 s2 : string) :
  all_runes P (s1 +:+ s2) = all_runes P s1 && all_runes P s2.
Proof.
  induction s1 as [|c s1 IH]; [done|].
  rewrite append_cons. simpl. by rewrite IH, andb_assoc.
Qed.

Lemma all_runes_WriteRune (P : ascii → bool) (s : string) (c : ascii) :
  all_runes P (WriteRune s c) = all_runes P s && P c.
Proof. unfold WriteRune. rewrite all_runes_app. simpl. by rewrite andb_true_r. Qed.

Lemma length_append (s1 s2 : string) :
  String.length (s1 +:+ s2) = (String.length s1 + String.length s2)%nat.
Proof.
  induction s1 as [|c s1 IH]; [done|]. rewrite append_cons. simpl. by rewrite IH.
Qed.

Lemma length_WriteRune (s : string) (c : ascii) :
  String.length (WriteRune s c) = S (String.length s).
Proof. unfold WriteRune. rewrite length_append. simpl. lia. Qed.

Lemma ToLower_not_upper (c : ascii) : unicode.IsUpper (unicode.ToLower c) = false.
Proof. destruct c as [[] [] [] [] [] [] [] []]; reflexivity. Qed.

Lemma ToLower_id (c : ascii) : unicode.IsUpper c = false → unicode.ToLower c = c.
Proof. unfold unicode.ToLower. by intros ->. Qed.

Lemma camelToSnake_loop_plain (name ret : string) :
  all_runes (λ c, negb (unicode.IsUpper c)) name = true →
  camelToSnake_loop name (ret, false, rune0) = (ret +:+ name, false, rune0).
Proof.
  revert ret. induction name as [|c name IH]; intros ret; simpl.
  - intros _. by rewrite append_nil_r.
  - intros [Hc Hname]%andb_true_iff. apply negb_true_iff in Hc.
    unfold camelToSnake_step. rewrite Hc.
    rewrite ?(bool_decide_eq_true_2 (rune0 = rune0)) by done. simpl.
    rewrite IH by done. unfold WriteRune. by rewrite append_assoc.
Qed.

Lemma all_runes_impl (P Q : ascii → bool) (s : string) :
  (∀ c, P c = true → Q c = true) → all_runes P s = true → all_runes Q s = true.
Proof.
  intros HPQ. induction s as [|c s IH]; [done|]. simpl.
  intros [Hc Hs]%andb_true_iff. by rewrite (HPQ c Hc), IH.
Qed.

Lemma plain_rune_not_upper (s : string) :
  all_runes plain_rune s = true → all_runes (λ c, negb (unicode.IsUpper c)) s = true.
Proof. apply all_runes_impl. by intros c [_ Hc]%andb_true_iff. Qed.

(** X1: a name of ASCII runes without an uppercase letter is returned
    unchanged. *)
Theorem camelToSnake_plain (name : string) :
  all_runes plain_rune name = true →
  camelToSnake name = name.
Proof.
  intros Hname%plain_rune_not_upper. unfold camelToSnake.
  rewrite (camelToSnake_loop_plain name "" Hname).
  by rewrite ?(bool_decide_eq_true_2 (rune0 = rune0)).
Qed.

Lemma camelToSnake_plain_witness : camelToSnake "already_snake_2" = "already_snake_2".
Proof. apply camelToSnake_plain. reflexivity. Defined.

Lemma camelToSnake_step_lower (c : ascii) (st : string * bool * ascii) :
  all_runes (λ c, negb (unicode.IsUpper c)) st.1.1 = true →
  all_runes (λ c, negb (unicode.IsUpper c)) (camelToSnake_step c st).1.1 = true.
Proof.
  destruct st as [[ret mu] lu]. simpl. intros Hret. unfold camelToSnake_step.
  destruct (bool_decide (lu = rune0)), (unicode.IsUpper c) eqn:Hc,
    (unicode.IsLower c), mu, (0 <? String.length ret)%nat; simpl;
    rewrite ?all_runes_WriteRune, ?Hret, ?ToLower_not_upper, ?Hc; done.
Qed.

Lemma camelToSnake_loop_lower (name : string) (st : string * bool * ascii) :
  all_runes (λ c, negb (unicode.IsUpper c)) st.1.1 = true →
  all_runes (λ c, negb (unicode.IsUpper c)) (camelToSnake_loop name st).1.1 = true.
Proof.
  revert st. induction name as [|c name IH]; intros st Hst; simpl; [done|].
  by apply IH, camelToSnake_step_lower.
Qed.

Lemma ToLower_ascii (c : ascii) :
  ascii_rune c = true → ascii_rune (unicode.ToLower c) = true.
Proof. destruct c as [[] [] [] [] [] [] [] []]; by vm_compute. Qed.

Lemma camelToSnake_step_ascii (c : ascii) (st : string * bool * ascii) :
  ascii_rune c = true →
  all_runes ascii_rune st.1.1 = true ∧ ascii_rune st.2 = true →
  all_runes ascii_rune (camelToSnake_step c st).1.1 = true
  ∧ ascii_rune (camelToSnake_step c st).2 = true.
Proof.
  destruct st as [[ret mu] lu]. simpl. intros Hc [Hret Hlu].
  pose proof (ToLower_ascii lu Hlu) as Hlow. unfold camelToSnake_step.
  destruct (bool_decide (lu = rune0)), (unicode.IsUpper c),
    (unicode.IsLower c), mu, (0 <? String.length ret)%nat; simpl;
    rewrite ?all_runes_WriteRune, ?Hret, ?Hlow, ?Hc; done.
Qed.

Lemma camelToSnake_loop_ascii (name : string) (st : string * bool * ascii) :
  all_runes ascii_rune name = true →
  all_runes ascii_rune st.1.1 = true ∧ ascii_rune st.2 = true →
  all_runes ascii_rune (camelToSnake_loop name st).1.1 = true
  ∧ ascii_rune (camelToSnake_loop name st).2 = true.
Proof.
  revert st. induction name as [|c name IH]; intros st Hname Hst; simpl; [done|].
  simpl in Hname. apply andb_true_iff in Hname as [Hc Hname].
  by apply IH, camelToSnake_step_ascii.
Qed.

Lemma all_runes_and (P Q : ascii → bool) (s : string) :
  all_runes P s = true → all_runes Q s = true →
  all_runes (λ c, P c && Q c) s = true.
Proof.
  induction s as [|c s IH]; [done|]. simpl.
  intros [HP HPs]%andb_true_iff [HQ HQs]%andb_true_iff. by rewrite HP, HQ, IH.
Qed.

(** X2: the result of the converter for a name of ASCII runes is made of
    ASCII runes and contains no uppercase letter. *)
Theorem camelToSnake_no_upper (name : string) :
  all_runes ascii_rune name = true →
  all_runes plain_rune (camelToSnake name) = true.
Proof.
  intros Hname. apply all_runes_and.
  - unfold camelToSnake.
    pose proof (camelToSnake_loop_ascii name ("", false, rune0) Hname (conj eq_refl eq_refl))
      as [Hret Hlu].
    destruct (camelToSnake_loop name ("", false, rune0)) as [[ret mu] lu]. simpl in *.
    destruct (negb (bool_decide (lu = rune0))); [|done].
    by rewrite all_runes_WriteRune, Hret, ToLower_ascii.
  - unfold camelToSnake.
    pose proof (camelToSnake_loop_lower name ("", false, rune0) eq_refl) as Hloop.
    destruct (camelToSnake_loop name ("", false, rune0)) as [[ret mu] lu]. simpl in Hloop.
    destruct (negb (bool_decide (lu = rune0))); [|done].
    by rewrite all_runes_WriteRune, Hloop, ToLower_not_upper.
Qed.

Lemma camelToSnake_no_upper_witness :
  all_runes plain_rune (camelToSnake "HTTPServerID") = true.
Proof. apply camelToSnake_no_upper. reflexivity. Defined.

Lemma camelToSnake_step_grows (c : ascii) (st : string * bool * ascii) :
  ∃ x, (camelToSnake_step c st).1.1 = st.1.1 +:+ x.
Proof.
  destruct st as [[ret mu] lu]. unfold camelToSnake_step, WriteRune. simpl.
  repeat case_match; simpl; rewrite ?append_assoc; eauto.
  all: try (by exists ""; rewrite append_nil_r).
Qed.

Lemma camelToSnake_loop_grows (name : string) (st : string * bool * ascii) :
  ∃ x, (camelToSnake_loop name st).1.1 = st.1.1 +:+ x.
Proof.
  revert st. induction name as [|c name IH]; intros st; simpl.
  - exists "". by rewrite append_nil_r.
  - destruct (IH (camelToSnake_step c st)) as [x ->].
    destruct (camelToSnake_step_grows c st) as [y ->].
    exists (y +:+ x). by rewrite append_assoc.
Qed.

Lemma camelToSnake_loop_head (name : string) (st : string * bool * ascii)
    (a : ascii) (x : string) :
  st.1.1 = String a x → ∃ y, (camelToSnake_loop name st).1.1 = String a y.
Proof.
  intros Hst. destruct (camelToSnake_loop_grows name st) as [y ->].
  rewrite Hst, append_cons. eauto.
Qed.

Lemma camelToSnake_finish_head (st : string * bool * ascii) (a : ascii) (x : string) :
  st.1.1 = String a x →
  ∃ y, (let '(ret, _, lastUpper) := st in
        if negb (bool_decide (lastUpper = rune0))
        then WriteRune ret (unicode.ToLower lastUpper) else ret) = String a y.
Proof.
  destruct st as [[ret mu] lu]. simpl. intros ->.
  destruct (negb _); unfold WriteRune; rewrite ?append_cons; eauto.
Qed.

Lemma camelToSnake_step_flush (d c : ascii) (mu : bool) :
  c ≠ rune0 →
  ∃ z, (camelToSnake_step d ("", mu, c)).1.1 = String (unicode.ToLower c) z.
Proof.
  intros Hne. unfold camelToSnake_step, WriteRune.
  rewrite (bool_decide_eq_false_2 (c = rune0)) by done. simpl.
  destruct (unicode.IsUpper d || negb (unicode.IsLower d)); simpl; eauto.
Qed.

(** X3: the converter puts no separator in front: the result for a non-empty
    name of ASCII runes begins with the lowercase of the first character of
    the name. *)
Theorem camelToSnake_first (c : ascii) (name : string) :
  all_runes ascii_rune (String c name) = true →
  ∃ rest, camelToSnake (String c name) = String (unicode.ToLower c) rest.
Proof.
  intros _. unfold camelToSnake. cbn [camelToSnake_loop].
  assert (camelToSnake_step c ("", false, rune0)
          = if unicode.IsUpper c then ("", false, c) else (String c "", false, rune0))
    as ->.
  { unfold camelToSnake_step. simpl. rewrite orb_false_r.
    by destruct (unicode.IsUpper c). }
  destruct (unicode.IsUpper c) eqn:Hc.
  - assert (c ≠ rune0) as Hne by (by intros ->).
    destruct name as [|d name]; cbn [camelToSnake_loop].
    + rewrite (bool_decide_eq_false_2 (c = rune0)) by done. simpl. by exists "".
    + destruct (camelToSnake_step_flush d c false Hne) as [z Hz].
      destruct (camelToSnake_loop_head name _ _ _ Hz) as [y Hy].
      apply (camelToSnake_finish_head _ _ _ Hy).
  - rewrite (ToLower_id c Hc).
    destruct (camelToSnake_loop_head name (String c "", false, rune0) c "" eq_refl)
      as [y Hy].
    apply (camelToSnake_finish_head _ _ _ Hy).
Qed.

Lemma camelToSnake_first_witness :
  ∃ rest, camelToSnake "UserID" = String "u"%char rest.
Proof. apply (camelToSnake_first "U"%char "serID"). reflexivity. Defined.

Lemma camelToSnake_step_length (c : ascii) (st : string * bool * ascii) :
  let st' := camelToSnake_step c st in
  (String.length st'.1.1 + 2 * buffered st' ≤ String.length st.1.1 + 2 * buffered st + 2)%nat
  ∧ (c ≠ rune0 →
     String.length st.1.1 + buffered st + 1 ≤ String.length st'.1.1 + buffered st')%nat.
Proof.
  destruct st as [[ret mu] lu]. unfold camelToSnake_step, buffered. simpl.
  destruct (bool_decide (lu = rune0)) eqn:Hlu, (unicode.IsUpper c),
    (unicode.IsLower c), mu, (0 <? String.length ret)%nat; simpl;
    rewrite ?length_WriteRune;
    (split; [|intros Hne]); repeat case_bool_decide; try done; lia.
Qed.

Lemma camelToSnake_loop_length (name : string) (st : string * bool * ascii) :
  let st' := camelToSnake_loop name st in
  (String.length st'.1.1 + 2 * buffered st'
   ≤ String.length st.1.1 + 2 * buffered st + 2 * String.length name)%nat
  ∧ (all_runes (λ c, negb (bool_decide (c = rune0))) name = true →
     String.length st.1.1 + buffered st + String.length name
     ≤ String.length st'.1.1 + buffered st')%nat.
Proof.
  revert st. induction name as [|c name IH]; intros st; simpl; [lia|].
  destruct (IH (camelToSnake_step c st)) as [Hup Hlow].
  destruct (camelToSnake_step_length c st) as [Hup1 Hlow1]. simpl in *.
  split; [lia|].
  intros [Hc Hname]%andb_true_iff. apply negb_true_iff, bool_decide_eq_false in Hc.
  specialize (Hlow Hname). specialize (Hlow1 Hc). lia.
Qed.

(** X4: for a name of ASCII runes the result is at most twice as long as
    the name, and, when the name holds no zero rune, at least as long as the
    name: every character of the name is written once, with at most one
    separator before it. *)
Theorem camelToSnake_length (name : string) :
  all_runes ascii_rune name = true →
  (String.length (camelToSnake name) ≤ 2 * String.length name)%nat
  ∧ (all_runes (λ c, negb (bool_decide (c = rune0))) name = true →
     String.length name ≤ String.length (camelToSnake name))%nat.
Proof.
  intros _. unfold camelToSnake.
  destruct (camelToSnake_loop_length name ("", false, rune0)) as [Hup Hlow].
  destruct (camelToSnake_loop name ("", false, rune0)) as [[ret mu] lu].
  unfold buffered in *. simpl in *.
  destruct (bool_decide (lu = rune0)); simpl; rewrite ?length_WriteRune.
  - split; [lia|]. intros Hname. specialize (Hlow Hname). lia.
  - split; [lia|]. intros Hname. specialize (Hlow Hname). lia.
Qed.

Lemma camelToSnake_length_witness :
  (String.length (camelToSnake "HTTPServer2") ≤ 2 * String.length "HTTPServer2")%nat
  ∧ (String.length "HTTPServer2" ≤ String.length (camelToSnake "HTTPServer2"))%nat.
Proof.
  destruct (camelToSnake_length "HTTPServer2" eq_refl) as [Hup Hlow].
  split; [exact Hup|]. apply Hlow. reflexivity.
Defined.

(** ** Escaped names, fresh variables and field names *)

Lemma map_runes_length (f : ascii → ascii) (s : string) :
  String.length (map_runes f s) = String.length s.
Proof. induction s as [|c s IH]; [done|]. simpl. by rewrite IH. Qed.

Lemma map_runes_all (f : ascii → ascii) (P : ascii → bool) (s : string) :
  (∀ c, P (f c) = true) → all_runes P (map_runes f s) = true.
Proof.
  intros Hf. induction s as [|c s IH]; [done|]. simpl. by rewrite Hf, IH.
Qed.

(** X5: the escaped name of a type whose package path and name are made of
    ASCII runes holds ASCII letters, digits and underscores only, and is as
    long as the package path followed by ".Name", or by "anonymous" for an
    unnamed type. *)
Theorem safeName_safe (t : rtype) :
  all_runes ascii_rune (reflect.PkgPath t) = true →
  all_runes ascii_rune (reflect.Name t) = true →
  all_runes safe_rune (safeName t) = true
  ∧ String.length (safeName t)
    = (String.length (reflect.PkgPath t)
       + if bool_decide (reflect.Name t = "") then 9
         else S (String.length (reflect.Name t)))%nat.
Proof.
  intros _ _. unfold safeName. split.
  - apply map_runes_all. intros c. unfold safe_rune.
    destruct (unicode.IsLetter c || unicode.IsDigit c) eqn:Hc; [by rewrite Hc|].
    by rewrite orb_true_r.
  - rewrite map_runes_length. case_bool_decide; rewrite !length_append; simpl; lia.
Qed.

Lemma safeName_safe_witness :
  all_runes safe_rune (safeName type_foreign) = true
  ∧ String.length (safeName type_foreign) = 24%nat.
Proof. apply (safeName_safe type_foreign); reflexivity. Defined.

Lemma wrap_int_add (a b : Z) : wrap_int (wrap_int a + b) = wrap_int (a + b).
Proof.
  unfold wrap_int.
  replace ((a + 2 ^ 63) `mod` 2 ^ 64 - 2 ^ 63 + b + 2 ^ 63)%Z
    with ((a + 2 ^ 63) `mod` 2 ^ 64 + b)%Z by lia.
  replace (a + b + 2 ^ 63)%Z with ((a + 2 ^ 63) + b)%Z by lia.
  by rewrite Zplus_mod_idemp_l.
Qed.

Lemma wrap_int_inj (a b : Z) :
  wrap_int a = wrap_int b → (Z.abs (a - b) < 2 ^ 64)%Z → a = b.
Proof.
  unfold wrap_int. intros Heq Hclose.
  assert (((a + 2 ^ 63) `mod` 2 ^ 64 = (b + 2 ^ 63) `mod` 2 ^ 64)%Z) as Hmod by lia.
  pose proof (Z.div_mod (a + 2 ^ 63) (2 ^ 64) ltac:(lia)) as Ha.
  pose proof (Z.div_mod (b + 2 ^ 63) (2 ^ 64) ltac:(lia)) as Hb.
  rewrite Hmod in Ha.
  assert ((a + 2 ^ 63) `div` 2 ^ 64 = (b + 2 ^ 63) `div` 2 ^ 64)%Z; [|lia].
  nia.
Qed.

Lemma wrap_int_small (z : Z) : (- 2 ^ 63 ≤ z < 2 ^ 63)%Z → wrap_int z = z.
Proof. intros Hz. unfold wrap_int. rewrite Z.mod_small by lia. lia. Qed.

Lemma uniqueVarNames_names (n : nat) (g : Generator) :
  (uniqueVarNames n g).1
  = (λ k : nat, "v" +:+ pretty (wrap_int (varCounter g + Z.of_nat k))) <$> seq 1 n.
Proof.
  revert g. induction n as [|n IH]; intros g; [done|].
  cbn [uniqueVarNames]. unfold uniqueVarName.
  pose proof (IH (set_varCounter (wrap_int (varCounter g + 1)) g)) as Hnames.
  destruct (uniqueVarNames n (set_varCounter (wrap_int (varCounter g + 1)) g))
    as [names g'].
  simpl in *. f_equal. rewrite <-(fmap_S_seq 1 n), <-list_fmap_compose, Hnames.
  apply list_fmap_ext. intros i k _. simpl. do 2 f_equal.
  rewrite wrap_int_add. f_equal. lia.
Qed.

(** X6: fewer than 2^64 successive calls of [uniqueVarName] return pairwise
    different names, whatever the counter was; and while the counter stays
    below 2^63 the names are "v" followed by the successive counter values. *)
Theorem uniqueVarName_fresh (n : nat) (g : Generator) :
  (Z.of_nat n < 2 ^ 64)%Z →
  NoDup (uniqueVarNames n g).1
  ∧ ((0 ≤ varCounter g)%Z → (varCounter g + Z.of_nat n < 2 ^ 63)%Z →
     (uniqueVarNames n g).1
     = (λ k : nat, "v" +:+ pretty (varCounter g + Z.of_nat k)%Z) <$> seq 1 n).
Proof.
  intros Hn. rewrite uniqueVarNames_names. split.
  - apply NoDup_fmap_2_strong; [|apply NoDup_seq].
    intros j k Hj%elem_of_seq Hk%elem_of_seq Heq.
    apply (inj (String.app _)), (inj pretty), wrap_int_inj in Heq; lia.
  - intros Hlow Hhigh. apply list_fmap_ext. intros i k Hk%list_elem_of_lookup_2.
    apply elem_of_seq in Hk. simpl. by rewrite wrap_int_small by lia.
Qed.

Lemma uniqueVarName_fresh_witness :
  NoDup (uniqueVarNames 3 NewGenerator).1
  ∧ (uniqueVarNames 3 NewGenerator).1 = ["v1"; "v2"; "v3"].
Proof.
  destruct (uniqueVarName_fresh 3 NewGenerator) as [Hnd Hnames]; [done|].
  split; [exact Hnd|]. by rewrite Hnames.
Defined.

(** X7: an explicit name in the json tag of a field wins under both naming
    policies: when the tag value is a non-empty name without a comma,
    possibly followed by a comma and options, both namers return that name;
    when the tag value is empty or begins with a comma, the default namer
    returns the declared name of the field and the snake case namer its
    conversion. *)
Theorem GetJSONFieldName_override (n : FieldNamer) (t : rtype) (f : StructField)
    (name options : string) :
  all_runes (λ c, negb (bool_decide (c = ","%char))) name = true →
  (name ≠ "" →
   (Tag_Get f "json" = name ∨ Tag_Get f "json" = name +:+ "," +:+ options) →
   GetJSONFieldName n t f = name)
  ∧ ((Tag_Get f "json" = "" ∨ Tag_Get f "json" = "," +:+ options) →
     GetJSONFieldName n t f
     = match n with
       | DefaultFieldNamer => FieldName f
       | SnakeCaseFieldNamer => camelToSnake (FieldName f)
       end).
Proof.
  intros Hname.
  assert (∀ rest, before_comma name = name
                  ∧ before_comma (name +:+ "," +:+ rest) = name) as Hcut.
  { intros rest. clear -Hname. induction name as [|c name IH]; [done|].
    simpl in Hname. apply andb_true_iff in Hname as [Hc Hname].
    apply negb_true_iff in Hc. rewrite append_cons. simpl. rewrite Hc.
    destruct (IH Hname) as [-> ->]. done. }
  split.
  - intros Hne Htag. unfold GetJSONFieldName.
    assert (before_comma (Tag_Get f "json") = name) as ->.
    { destruct Htag as [-> | ->]; apply (Hcut options). }
    rewrite bool_decide_eq_false_2 by done. by destruct n.
  - intros Htag. unfold GetJSONFieldName.
    assert (before_comma (Tag_Get f "json") = "") as ->.
    { by destruct Htag as [-> | ->]. }
    by destruct n.
Qed.

Lemma GetJSONFieldName_override_witness :
  GetJSONFieldName DefaultFieldNamer type_A field_UserName = "uname"
  ∧ GetJSONFieldName SnakeCaseFieldNamer type_A field_UserName = "uname".
Proof.
  split.
  - apply (proj1 (GetJSONFieldName_override DefaultFieldNamer type_A field_UserName
      "uname" "omitempty" eq_refl)); [done|by right].
  - apply (proj1 (GetJSONFieldName_override SnakeCaseFieldNamer type_A field_UserName
      "uname" "omitempty" eq_refl)); [done|by right].
Defined.

(** *** The import lines of the header *)

Lemma collect_aliases_other (l : list (string * string))
    (acc : list string * gmap string string) (a : string) :
  a ∉ l.*2 →
  (fold_left
     (λ (acc : list string * gmap string string) (e : string * string),
        (acc.1 ++ [e.2], <[e.2 := e.1]> acc.2)) l acc).2 !! a
  = acc.2 !! a.
Proof.
  revert acc. induction l as [|[p b] l IH]; intros acc Ha; [done|].
  rewrite fmap_cons, not_elem_of_cons in Ha. destruct Ha as [Hne Ha]. simpl in *.
  rewrite IH by done. simpl. by rewrite lookup_insert_ne.
Qed.

Lemma collect_aliases_lookup (l : list (string * string))
    (acc : list string * gmap string string) (p a : string) :
  NoDup l.*2 → (p, a) ∈ l →
  (fold_left
     (λ (acc : list string * gmap string string) (e : string * string),
        (acc.1 ++ [e.2], <[e.2 := e.1]> acc.2)) l acc).2 !! a
  = Some p.
Proof.
  revert acc. induction l as [|[q b] l IH]; intros acc Hnd Hin.
  - by apply elem_of_nil in Hin.
  - rewrite fmap_cons, NoDup_cons in Hnd. destruct Hnd as [Hb Hnd]. simpl in *.
    apply elem_of_cons in Hin as [[= -> ->]|Hin].
    + rewrite collect_aliases_other by done. simpl. by rewrite lookup_insert_eq.
    + by apply IH.
Qed.

(** X8: when the aliases of the import map are pairwise different, the
    header lists every import exactly once, each alias with its own path:
    the import lines are a rearrangement of the entries of the map. *)
Theorem import_lines_complete (sh1 sh2 : shuffle) (g : Generator) :
  NoDup (map_to_list (imports g)).*2 →
  import_lines sh1 sh2 g ≡ₚ (λ e, (e.2, e.1)) <$> map_to_list (imports g).
Proof.
  intros Hnd. unfold import_lines, collect_aliases.
  destruct (fold_left _ (range_map sh1 (imports g)) ([], ∅)) as [aliases byAlias] eqn:Hfold.
  assert (∀ p a, imports g !! p = Some a → byAlias !! a = Some p) as Hby.
  { intros p a Hpa.
    assert (byAlias = (aliases, byAlias).2) as -> by done. rewrite <-Hfold.
    apply collect_aliases_lookup.
    - unfold range_map. by rewrite (sh_perm sh1).
    - by apply elem_of_range_map. }
  cbv zeta.
  change (map ?f ?l) with (f <$> l).
  assert ((λ e : string * string, (e.2, default "" (byAlias !! e.2)))
            <$> range_map sh2 (imports g)
          = (λ e : string * string, (e.2, e.1)) <$> range_map sh2 (imports g)) as ->.
  { apply list_fmap_ext.
    intros i [p a] Hin%list_elem_of_lookup_2. apply elem_of_range_map in Hin.
    simpl. by rewrite (Hby p a Hin). }
  unfold range_map. by rewrite (sh_perm sh2).
Qed.

Lemma import_lines_complete_witness :
  import_lines sh_rev sh_id NewGenerator
  ≡ₚ (λ e, (e.2, e.1)) <$> map_to_list (imports NewGenerator).
Proof.
  apply import_lines_complete. apply (bool_decide_unpack _). vm_compute. exact I.
Defined.

(** *** Registration *)

(** X11: [Add] records the request for marshallers and leaves the type seen
    or pending; it changes no other request and no seen type; adding the same
    type again changes nothing. *)
Theorem Add_spec (t : rtype) (g : Generator) :
  flag (marshallers (Add t g)) t = true
  ∧ (flag (typesSeen (Add t g)) t = true ∨ t ∈ typesUnseen (Add t g))
  ∧ (∀ x, x ≠ t → flag (marshallers (Add t g)) x = flag (marshallers g) x)
  ∧ typesSeen (Add t g) = typesSeen g
  ∧ Add t (Add t g) = Add t g.
Proof.
  unfold Add. pose proof (addType_registered t g) as Hreg.
  assert (typesSeen (addType t g) = typesSeen g) as Hseen.
  { by destruct (addType_cases t g) as [[_ ->]|(_ & _ & ->)]. }
  split_and!; simpl.
  - unfold flag. by rewrite lookup_insert_eq.
  - done.
  - intros x Hx. unfold flag. by rewrite lookup_insert_ne.
  - done.
  - rewrite addType_known by done. simpl. by rewrite insert_insert_eq.
Qed.

(** *** The function namer *)

(** X10: when the canonical name of a type is taken by another type and no
    name that starts with the prefix is registered for the type, the namer
    returns the canonical name followed by the least number, from 1 on, that
    gives an unregistered name, and registers that name for the type. *)
Theorem functionName_mints_least (sh : shuffle) (prefix : string) (t e : rtype)
    (g : Generator) :
  functionNames g !! (prefix +:+ safeName t) = Some e → e ≠ t →
  (∀ name1, functionNames g !! name1 = Some t → HasPrefix name1 prefix = false) →
  ∃ i, (1 ≤ i)%nat
    ∧ functionName sh prefix t g
      = Some (prefix +:+ safeName t +:+ Sprint_nat i,
              set_functionNames
                (<[prefix +:+ safeName t +:+ Sprint_nat i := t]> (functionNames g)) g)
    ∧ functionNames g !! (prefix +:+ safeName t +:+ Sprint_nat i) = None
    ∧ ∀ j, (1 ≤ j < i)%nat →
           is_Some (functionNames g !! (prefix +:+ safeName t +:+ Sprint_nat j)).
Proof.
  intros He Hne Hnone. unfold functionName. rewrite He.
  rewrite bool_decide_eq_false_2 by done.
  destruct (find _ _) as [[name1 t1]|] eqn:Hfind.
  { apply find_some in Hfind as [Hin Hmatch].
    apply list_elem_of_In, elem_of_range_map in Hin.
    apply andb_true_iff in Hmatch as [Ht Hpre].
    apply bool_decide_eq_true in Ht. simpl in *. subst t1.
    by rewrite (Hnone name1 Hin) in Hpre. }
  destruct (functionName_loop_total (functionNames g) (prefix +:+ safeName t))
    as [nm Hnm].
  rewrite Hnm. simpl. rewrite functionName_loop_scan in Hnm.
  apply scan_Some in Hnm as (i & Hi & -> & Hfree & Hbelow).
  exists i. rewrite !append_assoc. split_and!; [done|done| |].
  - apply bool_decide_eq_false in Hfree. rewrite <-append_assoc.
    by apply eq_None_not_Some.
  - intros j Hj. specialize (Hbelow j Hj). apply bool_decide_eq_true in Hbelow.
    by rewrite <-append_assoc.
Qed.

Lemma functionName_mints_least_witness :
  ∃ g, functionName sh_id "easyjson_decode_" anonymous1 NewGenerator
       = Some ("easyjson_decode_anonymous", g)
    ∧ ∃ i, functionName sh_rev "easyjson_decode_" anonymous2 g
           = Some ("easyjson_decode_" +:+ safeName anonymous2 +:+ Sprint_nat i,
                   set_functionNames
                     (<["easyjson_decode_" +:+ safeName anonymous2 +:+ Sprint_nat i
                        := anonymous2]> (functionNames g)) g).
Proof.
  eexists. split; [reflexivity|].
  assert (∀ name1,
            (<["easyjson_decode_anonymous" := anonymous1]> (∅ : gmap string rtype))
              !! name1 = Some anonymous2 →
            HasPrefix name1 "easyjson_decode_" = false) as Hnone.
  { intros name1. rewrite lookup_insert. case_decide; [|by rewrite lookup_empty].
    intros [= Heq]. }
  assert (functionNames
            (set_functionNames (<["easyjson_decode_anonymous" := anonymous1]> ∅)
               NewGenerator)
            !! ("easyjson_decode_" +:+ safeName anonymous2) = Some anonymous1) as Htaken.
  { vm_compute. reflexivity. }
  destruct (functionName_mints_least sh_rev "easyjson_decode_" anonymous2 anonymous1
    (set_functionNames (<["easyjson_decode_anonymous" := anonymous1]> ∅) NewGenerator)
    Htaken ltac:(done) Hnone) as (i & _ & Hcall & _).
  exists i. exact Hcall.
Defined.

(** X13: the alias allocator always returns; the alias is not empty and is
    recorded for the path; no other path changes its alias, and nothing but
    the import map changes. *)
Theorem pkgAlias_frame (p : string) (g : Generator) :
  ∃ a g', pkgAlias p g = Some (a, g')
    ∧ a ≠ ""
    ∧ imports g' !! p = Some a
    ∧ (∀ q, q ≠ p → imports g' !! q = imports g !! q)
    ∧ g' = set_imports (imports g') g.
Proof.
  destruct (pkgAlias_total p g) as [[a g'] Hcall]. exists a, g'.
  pose proof (pkgAlias_post _ _ _ _ Hcall) as (Ha & Hp & Hframe & _).
  split_and!; try done.
  intros q Hq. unfold pkgAlias in Hcall.
  destruct (negb _); [by injection Hcall as _ <-|].
  destruct (pkgAlias_loop _ _ _ _) as [alias|]; [simpl in Hcall|done].
  injection Hcall as _ <-. simpl. by rewrite lookup_insert_ne.
Qed.

(** *** More on [Run] *)

Lemma body_events_head (r : bool) (t : rtype) (evs : list event) (err : option error) :
  body_events r t evs err → ∃ rest, evs = EvVisit t :: rest.
Proof. intros Hb. destruct Hb; eauto. Qed.

Section run_more.

Variable quote : string → string.

Variable order : nat → shuffle.

Variables genStructDecoder genStructEncoder genStructMarshaller
  genStructUnmarshaller : rtype → Generator → prog.

Local Abbreviation Run_loop' :=
  (Run_loop order genStructDecoder genStructEncoder genStructMarshaller
     genStructUnmarshaller).

Local Abbreviation Run' :=
  (Run quote order genStructDecoder genStructEncoder genStructMarshaller
     genStructUnmarshaller).

Lemma Run_idle (fuel : nat) (w : Writer) (m : Machine) :
  typesUnseen (gen m) = [] →
  Run' fuel w m = Some (finish quote order w (reset_out m)).
Proof.
  intros Hempty. unfold Run. fold (reset_out m).
  assert (Run_loop' fuel (reset_out m) = Some (None, reset_out m)) as ->.
  { destruct fuel; simpl; by rewrite Hempty. }
  simpl. unfold finish. by destruct (Write _ _ _).
Qed.

Lemma finish_idle (w : Writer) (m : Machine) :
  let r := finish quote order w (reset_out m) in
  trace r.2 = trace m ∧ out (gen r.2) = "" ∧ written r.2 = written m
  ∧ ∃ sh1 sh2, stdout r.2 = stdout m +:+ printHeader quote sh1 sh2 (gen r.2).
Proof.
  unfold finish, reset_out. destruct w as [|[e|]]; simpl;
    rewrite ?append_nil_r; split_and!; try done; by eexists _, _.
Qed.

(** X9: with no pending type, [Run] returns for any fuel, invokes no
    collaborator and visits nothing; the body is empty, nothing reaches
    another writer, and the header is still printed. *)
Theorem Run_nothing_pending (fuel : nat) (w : Writer) (m : Machine) :
  typesUnseen (gen m) = [] →
  ∃ err m', Run' fuel w m = Some (err, m')
    ∧ trace m' = trace m
    ∧ out (gen m') = ""
    ∧ written m' = written m
    ∧ ∃ sh1 sh2, stdout m' = stdout m +:+ printHeader quote sh1 sh2 (gen m').
Proof.
  intros Hempty. rewrite (Run_idle fuel w m Hempty).
  pose proof (finish_idle w m) as Hfin.
  destruct (finish quote order w (reset_out m)) as [err m']. by exists err, m'.
Qed.

(** X15: after a run in which no collaborator failed, a second run finds
    nothing pending: it returns for any fuel and any writer, invokes no
    collaborator, and its body is empty. *)
Theorem Run_twice (fuel1 fuel2 : nat) (w1 w2 : Writer) (m : Machine)
    (err1 : option error) (m1 : Machine) (evs : list event) :
  Run' fuel1 w1 m = Some (err1, m1) →
  trace m1 = trace m ++ evs → clean evs →
  ∃ err2 m2, Run' fuel2 w2 m1 = Some (err2, m2)
    ∧ trace m2 = trace m1
    ∧ out (gen m2) = "".
Proof.
  intros (evs0 & errl & ml & Hadv & Hl & _ & Hres)%Run_inv Htrace Hclean.
  pose proof (adv_trace _ _ _ Hadv) as Htr. simpl in Htr.
  assert (typesUnseen (gen m1) = []) as Hempty.
  { destruct (loop_events_shape _ _ _ Hl)
      as [[-> _]|(pre & k & x & e & -> & -> & _)].
    - destruct Hres as [Hempty Hfin].
      assert (m1 = (finish quote order w1 ml).2) as -> by (by rewrite <-Hfin).
      by destruct (finish_gen quote order w1 ml) as [-> _].
    - destruct Hres as [_ ->]. rewrite Htr in Htrace.
      apply app_inv_head in Htrace. subst evs.
      exfalso. apply (Hclean k x e), elem_of_app. right. by apply list_elem_of_singleton. }
  rewrite (Run_idle fuel2 w2 m1 Hempty).
  pose proof (finish_idle w2 m1) as (Ht & Hout & _).
  destruct (finish quote order w2 (reset_out m1)) as [err2 m2]. by exists err2, m2.
Qed.

Lemma Run_loop_first (fuel : nat) (m : Machine) (t : rtype)
    (err : option error) (m' : Machine) :
  last (typesUnseen (gen m)) = Some t →
  Run_loop' fuel m = Some (err, m') →
  ∃ rest, trace m' = trace m ++ EvVisit t :: rest.
Proof.
  intros Hlast. destruct fuel as [|fuel]; simpl; rewrite Hlast; [done|].
  destruct (Run_body _ _ _ _ _ t m) as [[e1 m1]|] eqn:Hbody; [simpl|done].
  apply Run_body_advances in Hbody as (evs1 & Hadv1 & Hb1 & _); [|done].
  destruct (body_events_head _ _ _ _ Hb1) as [rest1 ->].
  destruct e1 as [e1|].
  - intros [= <- <-]. exists rest1. apply (adv_trace _ _ _ Hadv1).
  - intros (evs2 & Hadv2 & _)%Run_loop_advances.
    exists (rest1 ++ evs2).
    rewrite (adv_trace _ _ _ Hadv2), (adv_trace _ _ _ Hadv1).
    by rewrite <-app_assoc.
Qed.

Lemma Run_first (fuel : nat) (w : Writer) (m : Machine) (t : rtype)
    (err : option error) (m' : Machine) :
  last (typesUnseen (gen m)) = Some t →
  Run' fuel w m = Some (err, m') →
  ∃ rest, trace m' = trace m ++ EvVisit t :: rest.
Proof.
  intros Hlast. unfold Run. fold (reset_out m).
  destruct (Run_loop' fuel (reset_out m)) as [[errl ml]|] eqn:Hloop; [simpl|done].
  apply (Run_loop_first fuel (reset_out m) t) in Hloop as [rest Hrest]; [|done].
  simpl in Hrest. intros Hrun. exists rest.
  destruct errl as [e|]; simpl in Hrun.
  - by injection Hrun as _ <-.
  - injection Hrun as Hrun.
    assert (m' = (finish quote order w ml).2) as ->.
    { unfold finish. by rewrite Hrun. }
    by destruct (finish_gen quote order w ml) as [_ ->].
Qed.

(** X12: the worklist is a stack: when the collaborators request types of a
    finite list only, [Run] returns, and the first type it visits is the last
    element of the pending list, the one registered most recently. *)
Theorem Run_visits_last_first (U : list rtype) (fuel : nat) (w : Writer) (m : Machine)
    (t : rtype) :
  (∀ k x g, requests_within U
     (collaborator genStructDecoder genStructEncoder genStructMarshaller
        genStructUnmarshaller k x g)) →
  pending_ok (gen m) →
  (∀ x, x ∈ typesUnseen (gen m) → x ∈ U) →
  (length U ≤ fuel)%nat →
  last (typesUnseen (gen m)) = Some t →
  ∃ err m' rest,
    Run' fuel w m = Some (err, m') ∧ trace m' = trace m ++ EvVisit t :: rest.
Proof.
  intros HU Hok Hin Hlen Hlast.
  destruct (Run_total quote order _ _ _ _ U fuel w m HU Hok Hin Hlen) as [[err m'] Hrun].
  destruct (Run_first fuel w m t err m' Hlast Hrun) as [rest Hrest].
  by exists err, m', rest.
Qed.

(** X14: a run never revokes a request for marshallers and never forgets a
    seen type; what it prints and writes is appended to what was printed and
    written before. *)
Theorem Run_keeps (fuel : nat) (w : Writer) (m : Machine)
    (err : option error) (m' : Machine) :
  Run' fuel w m = Some (err, m') →
  marshallers (gen m') = marshallers (gen m)
  ∧ (∀ t, flag (typesSeen (gen m)) t = true → flag (typesSeen (gen m')) t = true)
  ∧ (∃ s, stdout m' = stdout m +:+ s)
  ∧ (∃ s, written m' = written m +:+ s).
Proof.
  intros (evs & errl & ml & Hadv & _ & _ & Hres)%Run_inv.
  pose proof (adv_marshallers _ _ _ Hadv) as Hmarsh.
  pose proof (adv_seen _ _ _ Hadv) as Hseen.
  pose proof (adv_stdout _ _ _ Hadv) as Hstdout.
  pose proof (adv_written _ _ _ Hadv) as Hwritten. simpl in *.
  destruct errl as [e|].
  - destruct Hres as [_ ->]. split_and!; [done| | |].
    + intros t Ht. apply Hseen. by left.
    + exists "". by rewrite append_nil_r.
    + exists "". by rewrite append_nil_r.
  - destruct Hres as [_ Hfin].
    assert (m' = (finish quote order w ml).2) as -> by (by rewrite <-Hfin).
    destruct (finish_gen quote order w ml) as [-> _].
    split_and!; [done| | |].
    + intros t Ht. apply Hseen. by left.
    + unfold finish. destruct w as [|[e|]]; simpl; rewrite Hstdout;
        rewrite ?append_assoc; eauto.
    + unfold finish. destruct w as [|[e|]]; simpl; rewrite Hwritten; eauto.
      all: exists ""; by rewrite append_nil_r.
Qed.

End run_more.

Lemma Run_nothing_pending_witness :
  ∃ err m',
    Run demo_quote demo_order demo_decoder demo_encoder demo_marshaller
      demo_unmarshaller 0 (other_Writer None) (boot NewGenerator) = Some (err, m')
    ∧ trace m' = [] ∧ out (gen m') = "" ∧ written m' = "".
Proof.
  destruct (Run_nothing_pending demo_quote demo_order demo_decoder demo_encoder
    demo_marshaller demo_unmarshaller 0 (other_Writer None) (boot NewGenerator) eq_refl)
    as (err & m' & Hrun & Htrace & Hout & Hwritten & _).
  by exists err, m'.
Defined.

Lemma stack_start_pending_ok : pending_ok (gen stack_start).
Proof.
  split; [apply (bool_decide_unpack _); by vm_compute|].
  intros t Ht. by vm_compute.
Qed.

Lemma stack_start_within (t : rtype) :
  t ∈ typesUnseen (gen stack_start) → t ∈ [type_A; type_B].
Proof. done. Qed.

Lemma Run_visits_last_first_witness :
  typesUnseen (gen stack_start) = [type_A; type_B]
  ∧ ∃ err m' rest,
      Run demo_quote demo_order demo_decoder demo_encoder demo_marshaller
        demo_unmarshaller 2 os_Stdout stack_start = Some (err, m')
      ∧ trace m' = EvVisit type_B :: rest.
Proof.
  split; [reflexivity|].
  exact (Run_visits_last_first demo_quote demo_order demo_decoder demo_encoder
    demo_marshaller demo_unmarshaller [type_A; type_B] 2 os_Stdout stack_start type_B
    demo_requests_within stack_start_pending_ok stack_start_within (le_n 2) eq_refl).
Defined.

Lemma Run_keeps_witness :
  ∃ err m',
    demo_Run 2 os_Stdout = Some (err, m')
    ∧ marshallers (gen m') = marshallers (gen demo_start).
Proof.
  destruct (demo_Run_returns os_Stdout) as [[err m'] Hrun].
  destruct (Run_keeps demo_quote demo_order demo_decoder demo_encoder
    demo_marshaller demo_unmarshaller 2 os_Stdout demo_start err m' Hrun)
    as (Hmarsh & _).
  by exists err, m'.
Defined.

Lemma Run_twice_witness :
  ∃ err1 m1 err2 m2,
    demo_Run 2 os_Stdout = Some (err1, m1)
    ∧ Run demo_quote demo_order demo_decoder demo_encoder demo_marshaller
        demo_unmarshaller 0 (other_Writer None) m1 = Some (err2, m2)
    ∧ trace m2 = trace m1 ∧ out (gen m2) = "".
Proof.
  destruct (demo_Run_returns os_Stdout) as [[err1 m1] Hrun].
  pose proof (demo_Run_trace os_Stdout) as Htrace. rewrite Hrun in Htrace.
  injection Htrace as Htrace. simpl in Htrace.
  destruct (Run_twice demo_quote demo_order demo_decoder demo_encoder
    demo_marshaller demo_unmarshaller 2 0 os_Stdout (other_Writer None) demo_start
    err1 m1 demo_events Hrun Htrace demo_events_clean)
    as (err2 & m2 & Hrun2 & Htr2 & Hout2).
  by exists err1, m1, err2, m2.
Defined.

(** ** Words and acronyms in the identifier converter *)

Lemma camelToSnake_loop_app (s1 s2 : string) (st : string * bool * ascii) :
  camelToSnake_loop (s1 +:+ s2) st = camelToSnake_loop s2 (camelToSnake_loop s1 st).
Proof.
  revert st. induction s1 as [|c s1 IH]; intros st; [done|].
  rewrite append_cons. simpl. apply IH.
Qed.

Lemma IsUpper_nonzero (c : ascii) : unicode.IsUpper c = true → c ≠ rune0.
Proof. by intros Hc ->. Qed.

Lemma IsLower_not_upper (c : ascii) : unicode.IsLower c = true → unicode.IsUpper c = false.
Proof. destruct c as [[] [] [] [] [] [] [] []]; by vm_compute. Qed.

Lemma all_lower_not_upper (s : string) :
  all_runes unicode.IsLower s = true →
  all_runes (λ c, negb (unicode.IsUpper c)) s = true.
Proof.
  induction s as [|c s IH]; [done|]. simpl.
  intros [Hc Hs]%andb_true_iff. by rewrite (IsLower_not_upper c Hc), IH.
Qed.

Lemma camelToSnake_loop_upper (name ret : string) (mu : bool) (lu : ascii) :
  all_runes unicode.IsUpper name = true →
  lu ≠ rune0 → ret = "" ∨ mu = true →
  (let '(ret', _, lastUpper) := camelToSnake_loop name (ret, mu, lu) in
   if negb (bool_decide (lastUpper = rune0))
   then WriteRune ret' (unicode.ToLower lastUpper) else ret')
  = ret +:+ map_runes unicode.ToLower (String lu name).
Proof.
  revert ret mu lu. induction name as [|c name IH]; intros ret mu lu Hname Hlu Hret.
  - simpl. by rewrite (bool_decide_eq_false_2 (lu = rune0)).
  - simpl in Hname. apply andb_true_iff in Hname as [Hc Hname].
    cbn [camelToSnake_loop].
    assert (camelToSnake_step c (ret, mu, lu)
            = (WriteRune ret (unicode.ToLower lu), true, c)) as ->.
    { unfold camelToSnake_step. rewrite Hc.
      rewrite (bool_decide_eq_false_2 (lu = rune0)) by done. simpl.
      destruct Hret as [-> | ->]; [done|]. by rewrite andb_false_r. }
    rewrite (IH _ true c Hname (IsUpper_nonzero c Hc)) by (by right).
    unfold WriteRune. by rewrite append_assoc.
Qed.

(** X16: a name of uppercase letters only is an acronym: it is converted to
    its lowercase, with no separator. *)
Theorem camelToSnake_acronym (name : string) :
  all_runes unicode.IsUpper name = true →
  camelToSnake name = map_runes unicode.ToLower name.
Proof.
  destruct name as [|c name]; [done|]. simpl.
  intros [Hc Hname]%andb_true_iff. unfold camelToSnake. cbn [camelToSnake_loop].
  assert (camelToSnake_step c ("", false, rune0) = ("", false, c)) as ->.
  { unfold camelToSnake_step. rewrite Hc. done. }
  by rewrite (camelToSnake_loop_upper name "" false c Hname (IsUpper_nonzero c Hc))
    by (by left).
Qed.

Lemma camelToSnake_acronym_witness : camelToSnake "HTTP" = "http".
Proof. apply (camelToSnake_acronym "HTTP"). reflexivity. Defined.

(** X17: a capital inside a name starts a word: after a non-empty part of
    ASCII runes without uppercase letters, an uppercase ASCII letter followed
    by lowercase ASCII letters is written in lowercase behind one separator.
    A single capital at the very end of the name is written in lowercase
    with no separator. *)
Theorem camelToSnake_word (head tail : string) (c : ascii) :
  all_runes plain_rune head = true → head ≠ "" →
  unicode.IsUpper c = true →
  all_runes unicode.IsLower tail = true →
  camelToSnake (head +:+ String c tail)
  = if bool_decide (tail = "") then head +:+ String (unicode.ToLower c) ""
    else head +:+ "_" +:+ String (unicode.ToLower c) tail.
Proof.
  intros Hhead%plain_rune_not_upper Hne Hc Htail. unfold camelToSnake.
  rewrite camelToSnake_loop_app, (camelToSnake_loop_plain head "" Hhead).
  cbn [camelToSnake_loop].
  assert (camelToSnake_step c ("" +:+ head, false, rune0) = (head, false, c)) as ->.
  { unfold camelToSnake_step. rewrite Hc. done. }
  pose proof (IsUpper_nonzero c Hc) as Hnz.
  destruct tail as [|d tail]; cbn [camelToSnake_loop].
  - by rewrite (bool_decide_eq_false_2 (c = rune0)).
  - simpl in Htail. apply andb_true_iff in Htail as [Hd Htail].
    assert (camelToSnake_step d (head, false, c)
            = (WriteRune (WriteRune (WriteRune head "_"%char) (unicode.ToLower c)) d,
               false, rune0)) as ->.
    { unfold camelToSnake_step.
      rewrite (IsLower_not_upper d Hd), Hd.
      rewrite (bool_decide_eq_false_2 (c = rune0)) by done. simpl.
      destruct head as [|h head]; [done|]. done. }
    rewrite (camelToSnake_loop_plain tail _ (all_lower_not_upper tail Htail)).
    simpl. unfold WriteRune. rewrite !append_assoc. done.
Qed.

Lemma camelToSnake_word_witness :
  camelToSnake "userName" = "user_name" ∧ camelToSnake "userN" = "usern".
Proof.
  split.
  - by apply (camelToSnake_word "user" "ame" "N"%char).
  - by apply (camelToSnake_word "user" "" "N"%char).
Defined.

(** ** The order of the collaborator calls *)

Lemma loop_events_block (R : rtype → bool) (evs : list event) (err : option error)
    (t : rtype) :
  loop_events R evs err → EvVisit t ∈ evs →
  ∃ pre body post e,
    evs = pre ++ body ++ post ∧ body_events (R t) t body e.
Proof.
  induction 1 as [|x evs e Hb|x evs rest err Hb Hrest IH].
  - by intros ?%elem_of_nil.
  - intros Hin. apply (body_events_visit _ _ _ _ _ Hb) in Hin as ->.
    exists [], evs, [], (Some e). by rewrite app_nil_r.
  - intros [Hin|Hin]%elem_of_app.
    + apply (body_events_visit _ _ _ _ _ Hb) in Hin as ->.
      by exists [], evs, rest, None.
    + destruct (IH Hin) as (pre & body & post & e & -> & Hbody).
      exists (evs ++ pre), body, post, e. by rewrite <-app_assoc.
Qed.

(** X18: in a run in which no collaborator fails, the events of the visit of
    a type are contiguous and in the order of the loop body: the type is
    taken off the worklist, then its decoder and its encoder are emitted,
    then, when marshallers were requested for it, its marshaller and its
    unmarshaller; only requests and emissions of the collaborators lie in
    between. *)
Theorem Run_call_order (quote : string → string) (order : nat → shuffle)
    (D E M U : rtype → Generator → prog) (fuel : nat) (w : Writer) (m : Machine)
    (err : option error) (m' : Machine) (evs : list event) (t : rtype) :
  Run quote order D E M U fuel w m = Some (err, m') →
  trace m' = trace m ++ evs → clean evs → EvVisit t ∈ evs →
  ∃ pre body post,
    evs = pre ++ body ++ post
    ∧ body_events (flag (marshallers (gen m)) t) t body None.
Proof.
  intros (evs0 & errl & ml & Hadv & Hl & _ & Hres)%Run_inv Htrace Hclean Hin.
  pose proof (adv_trace _ _ _ Hadv) as Htr. simpl in Htr.
  assert (trace m' = trace ml) as Hsame.
  { destruct errl as [e|]; [by destruct Hres as [_ ->]|].
    destruct Hres as [_ Hfin].
    assert (m' = (finish quote order w ml).2) as -> by (by rewrite <-Hfin).
    apply finish_gen. }
  rewrite Hsame, Htr in Htrace. apply app_inv_head in Htrace. subst evs0.
  destruct (loop_events_block _ _ _ t Hl Hin) as (pre & body & post & e & -> & Hbody).
  exists pre, body, post. split; [done|].
  destruct e as [e|]; [|done]. exfalso.
  apply body_events_failed in Hbody as (pre' & k & -> & _).
  apply (Hclean k t e). rewrite !elem_of_app. right. left. right.
  by apply list_elem_of_singleton.
Qed.

Lemma Run_call_order_witness :
  ∃ pre body post,
    demo_events = pre ++ body ++ post
    ∧ body_events (flag (marshallers (gen demo_start)) type_B) type_B body None.
Proof.
  destruct (demo_Run_returns os_Stdout) as [[err m'] Hrun].
  pose proof (demo_Run_trace os_Stdout) as Htrace. rewrite Hrun in Htrace.
  injection Htrace as Htrace. simpl in Htrace.
  apply (Run_call_order demo_quote demo_order demo_decoder demo_encoder demo_marshaller
    demo_unmarshaller 2 os_Stdout demo_start err m' demo_events type_B Hrun Htrace
    demo_events_clean).
  unfold demo_events. do 10 right. left.
Defined.

(** ** Type references to one package *)

(** X19: two named types of one package other than the output package are
    referred to through the same alias: the first reference allocates the
    alias, the second finds it and leaves the generator as it is. *)
Theorem getType_same_package (t1 t2 : rtype) (g : Generator) :
  reflect.Name t1 ≠ "" → reflect.Name t2 ≠ "" →
  reflect.PkgPath t1 ≠ "" → reflect.PkgPath t1 ≠ pkgPath g →
  reflect.PkgPath t2 = reflect.PkgPath t1 →
  ∃ alias g1,
    getType t1 g = Some (alias +:+ "." +:+ reflect.Name t1, g1)
    ∧ getType t2 g1 = Some (alias +:+ "." +:+ reflect.Name t2, g1).
Proof.
  intros Hn1 Hn2 Hp1 Hout Hsame.
  destruct (pkgAlias_total (reflect.PkgPath t1) g) as [[alias g1] Hcall].
  exists alias, g1.
  pose proof (pkgAlias_post _ _ _ _ Hcall) as (_ & _ & Hframe & _).
  assert (pkgPath g1 = pkgPath g) as Hpkg by (by rewrite Hframe).
  unfold getType.
  rewrite (bool_decide_eq_false_2 _ Hn1), (bool_decide_eq_false_2 _ Hp1),
    (bool_decide_eq_false_2 _ Hout). cbn [orb]. rewrite Hcall.
  split; [done|].
  rewrite Hsame, Hpkg.
  rewrite (bool_decide_eq_false_2 _ Hn2), (bool_decide_eq_false_2 _ Hp1),
    (bool_decide_eq_false_2 _ Hout). cbn [orb].
  by rewrite (pkgAlias_idempotent _ _ _ _ Hcall).
Qed.

Lemma getType_same_package_witness :
  ∃ alias g1,
    getType type_foreign NewGenerator = Some (alias +:+ "." +:+ "Doc", g1)
    ∧ getType type_foreign2 g1 = Some (alias +:+ "." +:+ "Node", g1).
Proof.
  by apply (getType_same_package type_foreign type_foreign2 NewGenerator).
Defined.
